(** * libbitcoin-node: header sync, block-sync session and console loop

    A shallow embedding of

    - [src/src/protocol_header_sync.cpp]  (module [protocol_header_sync]),
    - [src/src/session_block_sync.cpp]    (module [session_block_sync]),
    - the command loop of [src/console/dispatch.cpp] (module [console]),

    followed by the properties of the synchronisation core that the
    specification states about them.

    Conventions.  A [std::vector] is a [list]; [size_t] is an unsigned
    64-bit integer, carried as a [Z] and reduced with [size_t] after every
    arithmetic operation; a [hash_digest] (32 bytes) is carried as the
    256-bit number it spells.  A handler is a function from the state of
    its object to the new state and the list of calls it makes on its
    collaborators, in order.  Behaviour the C++ standard leaves undefined
    ([back()] of an empty vector, division by zero) and a failed
    [BITCOIN_ASSERT] are [None]. *)

From Stdlib Require Import ZArith Lia.
From stdpp Require Import base option list strings.

Open Scope Z_scope.

(** ** Machine integers and vectors *)

Definition size_max : Z := 2 ^ 64.

(** Reduction of an arithmetic result to [size_t]. *)
Definition size_t (z : Z) : Z := z mod size_max.

(** [v.size()] *)
Definition vec_size {A} (v : list A) : Z := Z.of_nat (length v).

Definition hash_digest := Z.
Definition null_hash : hash_digest := 0.

(** ** Error codes ([bc::error]) *)

Module error.

(** The values of the enumeration that the modelled code names, and
    [other n] for each of the remaining ones. *)
Inductive code :=
  | success
  | service_stopped
  | operation_failed
  | channel_timeout
  | channel_stopped
  | previous_block_invalid
  | other (n : nat).

#[export] Instance code_eq_dec : EqDecision code.
Proof. solve_decision. Defined.

(** [if (ec)] : a code converts to [true] when it is not [success]. *)
Definition is_error (ec : code) : bool := negb (bool_decide (ec = success)).

End error.

Export (hints) error.
Abbreviation code := error.code.

(** ** Checkpoints ([bc::config::checkpoint]) *)

Module checkpoint.

Record t := make { height : Z; hash : hash_digest }.

#[export] Instance t_eq_dec : EqDecision t.
Proof. solve_decision. Defined.

(** Modelled from the spec: [checkpoint::validate] lives in the libbitcoin
    base library, not in this repository.  It "returns true iff either no
    checkpoint exists at that exact height, or the one at that height
    matches [hash]"; checkpoints at other heights impose no constraint. *)
Definition validate (h : hash_digest) (height_ : Z) (checks : list t) : bool :=
  bool_decide (Forall (λ item, height item = height_ → hash item = h) checks).

End checkpoint.

Export (hints) checkpoint.

(** ** Messages ([bc::message]) *)

Module header.

(** A block header as the protocol reads it: the parent link it carries
    and the value its [hash()] member computes. *)
Record t := make { previous_block_hash : hash_digest; hash : hash_digest }.

End header.

Module message.

Record headers := make_headers { elements : list header.t }.

Record get_headers :=
  make_get_headers { start_hashes : list hash_digest; stop_hash : hash_digest }.

#[export] Instance get_headers_eq_dec : EqDecision get_headers.
Proof. solve_decision. Defined.

End message.

Export (hints) message.

(** ** The header-sync protocol ([protocol_header_sync.cpp]) *)

Module protocol_header_sync.

Definition full_headers : Z := 2000.

(** The members of the class, [stopped_] standing for the [stopped()]
    state of the channel and [peer_start_height] for
    [peer_version().start_height].  [hashes_] is a reference to the list
    of the session; while a protocol runs it is the only writer, and the
    list is kept in its state.  [current_second_], declared in a header
    that is not among the sources, is taken to be a [size_t] like the
    operands of [current_rate]. *)
Record protocol := make {
  hashes_ : list hash_digest;
  current_second_ : Z;
  minimum_rate_ : Z;
  start_size_ : Z;
  first_height_ : Z;
  target_height_ : Z;
  checkpoints_ : list checkpoint.t;
  stopped_ : bool;
  peer_start_height : Z
}.

Definition set_hashes (p : protocol) (hashes : list hash_digest) : protocol :=
  make hashes (current_second_ p) (minimum_rate_ p) (start_size_ p)
    (first_height_ p) (target_height_ p) (checkpoints_ p) (stopped_ p)
    (peer_start_height p).

Definition set_current_second (p : protocol) (second : Z) : protocol :=
  make (hashes_ p) second (minimum_rate_ p) (start_size_ p)
    (first_height_ p) (target_height_ p) (checkpoints_ p) (stopped_ p)
    (peer_start_height p).

Definition set_stopped (p : protocol) (b : bool) : protocol :=
  make (hashes_ p) (current_second_ p) (minimum_rate_ p) (start_size_ p)
    (first_height_ p) (target_height_ p) (checkpoints_ p) b
    (peer_start_height p).

(** The calls a handler makes on the channel, the timer and the session. *)
Inductive call :=
  | handler (ec : code)
  | stop (ec : code)
  | start_timer
  | reset_timer
  | subscribe_headers
  | send (packet : message.get_headers).

#[export] Instance call_eq_dec : EqDecision call.
Proof. solve_decision. Defined.

Definition target (first_height : Z) (headers : list hash_digest)
    (checkpoints : list checkpoint.t) : Z :=
  let current_block := size_t (size_t (first_height + vec_size headers) - 1) in
  match last checkpoints with
  | None => current_block
  | Some back => Z.max (checkpoint.height back) current_block
  end.

(** The constructor; its assertion on the seed is the [None] case. *)
Definition construct (stopped : bool) (start_height : Z) (minimum_rate : Z)
    (first_height : Z) (hashes : list hash_digest)
    (checkpoints : list checkpoint.t) : option protocol :=
  let p := make hashes 0 minimum_rate (vec_size hashes) first_height
             (target first_height hashes checkpoints) checkpoints
             stopped start_height in
  if bool_decide (hashes = []) then None else Some p.

Definition next_height (p : protocol) : Z :=
  size_t (vec_size (hashes_ p) + first_height_ p).

(** The loop of [rollback] over [rbegin() .. rend()]: [std::find] gives the
    first position of the checkpoint's hash, [erase(++match, end())] keeps
    everything up to and including it. *)
Fixpoint rollback_scan (rcheckpoints : list checkpoint.t)
    (hashes : list hash_digest) : option (list hash_digest) :=
  match rcheckpoints with
  | [] => None
  | it :: rest =>
      match list_find (λ h, h = checkpoint.hash it) hashes with
      | Some (i, _) => Some (take (S i) hashes)
      | None => rollback_scan rest hashes
      end
  end.

Definition rollback_hashes (checkpoints : list checkpoint.t)
    (hashes : list hash_digest) : list hash_digest :=
  if bool_decide (checkpoints = []) then resize 1 null_hash hashes
  else
    match rollback_scan (reverse checkpoints) hashes with
    | Some kept => kept
    | None => resize 1 null_hash hashes
    end.

Definition rollback (p : protocol) : protocol :=
  set_hashes p (rollback_hashes (checkpoints_ p) (hashes_ p)).

(** The loop of [merge_headers] over [message.elements]. *)
Fixpoint merge_loop (p : protocol) (previous : hash_digest)
    (elements : list header.t) : protocol * bool :=
  match elements with
  | [] => (p, true)
  | block :: rest =>
      let current := header.hash block in
      if negb (bool_decide (header.previous_block_hash block = previous))
         || negb (checkpoint.validate current (next_height p) (checkpoints_ p))
      then (rollback p, false)
      else merge_loop (set_hashes p (hashes_ p ++ [current])) current rest
  end.

Definition merge_headers (p : protocol) (message : message.headers)
    : option (protocol * bool) :=
  previous ← last (hashes_ p);
  Some (merge_loop p previous (message.elements message)).

(** [headers_complete]: tell the session, then stop the channel.  Every
    [complete(ec)] of the source is a call of it through
    [synchronize(..., 1, NAME)], which lets the first call through: what is
    written here is that first call.  It stops the channel, so that a
    protocol reached from the constructor whose channel is not stopped has
    not completed yet. *)
Definition headers_complete (ec : code) (p : protocol) : protocol * list call :=
  (set_stopped p true, [handler ec; stop error.channel_stopped]).

Definition complete := headers_complete.

Definition send_get_headers (p : protocol) : option (protocol * list call) :=
  if stopped_ p then Some (p, [])
  else
    back ← last (hashes_ p);
    let packet := message.make_get_headers [back] null_hash in
    Some (p, [subscribe_headers; send packet]).

Definition handle_send (ec : code) (p : protocol) : protocol * list call :=
  if stopped_ p then (p, [])
  else if error.is_error ec then complete ec p
  else (p, []).

Definition handle_receive (ec : code) (message : message.headers)
    (p : protocol) : option (protocol * list call) :=
  if stopped_ p then Some (p, [])
  else if error.is_error ec then Some (complete ec p)
  else
    '(p', merged) ← merge_headers p message;
    if negb merged then Some (complete error.previous_block_invalid p')
    else if bool_decide (full_headers ≤ vec_size (message.elements message))
    then send_get_headers p'
    else
      let success := bool_decide (target_height_ p' < next_height p') in
      Some (complete (if success then error.success
                      else error.operation_failed) p').

Definition current_rate (p : protocol) : option Z :=
  if bool_decide (current_second_ p = 0) then None
  else Some (size_t (vec_size (hashes_ p) - start_size_ p) / current_second_ p).

Definition handle_event (ec : code) (p : protocol)
    : option (protocol * list call) :=
  if bool_decide (ec = error.channel_stopped) then Some (complete ec p)
  else if error.is_error ec && negb (bool_decide (ec = error.channel_timeout))
  then Some (complete ec p)
  else
    let p' := set_current_second p (size_t (current_second_ p + 1)) in
    rate ← current_rate p';
    if bool_decide (rate < minimum_rate_ p')
    then Some (complete error.channel_timeout p')
    else Some (p', [reset_timer]).

Definition start (p : protocol) : option (protocol * list call) :=
  if bool_decide (peer_start_height p < target_height_ p)
  then Some (p, [handler error.channel_stopped])
  else
    '(p', sent) ← send_get_headers p;
    Some (p', start_timer :: sent).

(** What the channel, the timer and the peer can deliver to the protocol. *)
Inductive event :=
  | on_start
  | on_send (ec : code)
  | on_receive (ec : code) (message : message.headers)
  | on_event (ec : code)
  | on_stop.

Definition deliver (e : event) (p : protocol) : option (protocol * list call) :=
  match e with
  | on_start => start p
  | on_send ec => Some (handle_send ec p)
  | on_receive ec message => handle_receive ec message p
  | on_event ec => handle_event ec p
  | on_stop => Some (set_stopped p true, [])
  end.

(** A run: the events delivered one after the other, the calls collected. *)
Fixpoint run (p : protocol) (events : list event)
    : option (protocol * list call) :=
  match events with
  | [] => Some (p, [])
  | e :: rest =>
      '(p', calls) ← deliver e p;
      '(p'', calls') ← run p' rest;
      Some (p'', calls ++ calls')
  end.

(** *** Notions used in the statements *)

(** The members fixed by the constructor. *)
Definition settings (p : protocol) :=
  (minimum_rate_ p, start_size_ p, first_height_ p, target_height_ p,
   checkpoints_ p, peer_start_height p).

(** The checkpoint list is kept sorted ascending by height. *)
Definition ascending (checkpoints : list checkpoint.t) : Prop :=
  ∀ i j a b, checkpoints !! i = Some a → checkpoints !! j = Some b →
    (i ≤ j)%nat → checkpoint.height a ≤ checkpoint.height b.

(** The hash list as it stands when the header at position [k] of a message
    is reached: the headers before it have been appended. *)
Definition hashes_before (p : protocol) (elements : list header.t) (k : nat)
    : list hash_digest :=
  hashes_ p ++ (header.hash <$> take k elements).

(** The header [block] at position [k] fails the linkage check against the
    last element of the list, or checkpoint validation at the height it
    would occupy. *)
Definition fails_at (p : protocol) (elements : list header.t) (k : nat)
    (block : header.t) : Prop :=
  let hashes := hashes_before p elements k in
  last hashes ≠ Some (header.previous_block_hash block) ∨
  checkpoint.validate (header.hash block) (next_height (set_hashes p hashes))
    (checkpoints_ p) = false.

(** [kept] is [hashes] cut immediately after the first element equal to the
    hash of the highest checkpoint whose hash occurs in [hashes], or, when
    no checkpoint hash occurs, cut down to its first element. *)
Definition cut_back (checkpoints : list checkpoint.t)
    (hashes kept : list hash_digest) : Prop :=
  (∃ top i,
      top ∈ checkpoints ∧
      hashes !! i = Some (checkpoint.hash top) ∧
      (∀ j, (j < i)%nat → hashes !! j ≠ Some (checkpoint.hash top)) ∧
      (∀ c, c ∈ checkpoints → checkpoint.hash c ∈ hashes →
            checkpoint.height c ≤ checkpoint.height top) ∧
      kept = take (S i) hashes)
  ∨ ((∀ c, c ∈ checkpoints → checkpoint.hash c ∉ hashes) ∧
     kept = take 1 hashes ∧ length kept = 1%nat).

(** The calls of a completion with the code [ec]. *)
Definition completion (ec : code) : list call :=
  [handler ec; stop error.channel_stopped].

(** The calls of a further request, with [back] as its only locator hash. *)
Definition request (back : hash_digest) : list call :=
  [subscribe_headers; send (message.make_get_headers [back] null_hash)].

(** *** Test data *)

(** A chain of [n] headers linked from the hash [first]. *)
Definition linked_headers (first : hash_digest) (n : nat) : list header.t :=
  (λ k, header.make (first + Z.of_nat k) (first + Z.of_nat k + 1)) <$> seq 0 n.

(** A protocol seeded with the hash 100 at height 0, without checkpoints. *)
Definition seeded : protocol := make [100] 0 0 1 0 0 [] false 5000.

(** A protocol holding four hashes, the third of them a checkpoint. *)
Definition anchored : protocol :=
  make [100; 101; 102; 103] 0 0 4 0 3 [checkpoint.make 2 102] false 5000.

(** A protocol that has added 30 hashes in its first 4 seconds and is to
    keep up 10 a second. *)
Definition slow : protocol :=
  make (100 :: replicate 30 1) 4 10 1 0 0 [] false 5000.

(** *** Measures of a run *)

(** A timer event that counts as one more second: the timer fired without
    an error, or with [channel_timeout]. *)
Definition is_tick (e : event) : bool :=
  match e with
  | on_event ec =>
      bool_decide (ec = error.success)
      || bool_decide (ec = error.channel_timeout)
  | _ => false
  end.

Definition ticks (events : list event) : Z :=
  vec_size (filter (λ e, is_tick e = true) events).

(** A headers message received without an error. *)
Definition is_headers (e : event) : bool :=
  match e with
  | on_receive ec _ => negb (error.is_error ec)
  | _ => false
  end.

End protocol_header_sync.

(** ** The block-sync session ([session_block_sync.cpp]) *)

Module session_block_sync.

Definition authority := Z.
Definition channel := nat.

(** The members the handlers read and write: [votes_], [start_height_],
    the [stopped()] state of the session, and the [quorum] and
    [blocks_per_minute] settings of [configuration_.node].  ([hashes_] is
    only handed on by reference, and [checkpoints_] is not read.) *)
Record session := make {
  votes_ : Z;
  stopped_ : bool;
  quorum : Z;
  blocks_per_minute : Z;
  start_height_ : Z
}.

Definition set_votes (s : session) (votes : Z) : session :=
  make votes (stopped_ s) (quorum s) (blocks_per_minute s) (start_height_ s).

Definition set_stopped (s : session) (b : bool) : session :=
  make (votes_ s) b (quorum s) (blocks_per_minute s) (start_height_ s).

(** The calls a handler makes: on the base session ([session_start],
    [fetch_address], [register_channel], the three [attach]), on the
    connector, and on the [result_handler] of the caller. *)
Inductive call :=
  | session_start
  | fetch_address
  | connect (sync : authority)
  | register_channel (ch : channel)
  | attach_ping (ch : channel)
  | attach_address (ch : channel)
  | attach_block_sync (ch : channel) (rate : Z) (start_height : Z)
  | handler (ec : code).

#[export] Instance call_eq_dec : EqDecision call.
Proof. solve_decision. Defined.

Section handlers.

(** [votes_] is declared in [session_block_sync.hpp], which is not among
    the sources: it is an unsigned counter, and the modulus of its type is
    a parameter. *)
Variable votes_modulus : Z.

Definition construct (stopped : bool) (start : Z) (quorum_ : Z)
    (blocks_per_minute_ : Z) : session :=
  make 0 stopped quorum_ blocks_per_minute_ start.

Definition start (s : session) : session * list call :=
  (s, [session_start]).

Definition new_connection (s : session) : session * list call :=
  if stopped_ s then (s, []) else (s, [fetch_address]).

Definition handle_started (ec : code) (s : session) : session * list call :=
  if error.is_error ec then (s, [handler ec])
  else new_connection (set_votes s 0).

Definition start_syncing (ec : code) (sync : authority) (s : session)
    : session * list call :=
  (s, [connect sync]).

Definition handle_complete (ec : code) (s : session) : session * list call :=
  let s' := if negb (error.is_error ec)
            then set_votes s ((votes_ s + 1) mod votes_modulus) else s in
  if error.is_error ec || bool_decide (votes_ s' < quorum s')
  then new_connection s'
  else (s', [handler error.success]).

Definition handle_connect (ec : code) (ch : channel) (s : session)
    : session * list call :=
  if error.is_error ec then new_connection s
  else (s, [register_channel ch]).

Definition handle_channel_start (ec : code) (ch : channel) (s : session)
    : session * list call :=
  if error.is_error ec then handle_complete ec s
  else
    let rate := blocks_per_minute s in
    (s, [attach_ping ch; attach_address ch;
         attach_block_sync ch rate (start_height_ s)]).

(** *** The callbacks in flight

    Each asynchronous call of the session is handed one of the handlers
    above and invokes it once: [session::start] answers with
    [handle_started], [fetch_address] with [start_syncing], [connect] with
    [handle_connect], [register_channel] with [handle_channel_start], and
    the block-sync protocol attached to a channel with [handle_complete].
    A configuration is the session together with the answers it still
    waits for. *)
Inductive pending :=
  | awaits_started
  | awaits_address
  | awaits_connect
  | awaits_channel_start
  | awaits_complete.

#[export] Instance pending_eq_dec : EqDecision pending.
Proof. solve_decision. Defined.

Definition answer_of (c : call) : option pending :=
  match c with
  | session_start => Some awaits_started
  | fetch_address => Some awaits_address
  | connect _ => Some awaits_connect
  | register_channel _ => Some awaits_channel_start
  | attach_block_sync _ _ _ => Some awaits_complete
  | attach_ping _ | attach_address _ | handler _ => None
  end.

Inductive event :=
  | on_started (ec : code)
  | on_address (ec : code) (sync : authority)
  | on_connect (ec : code) (ch : channel)
  | on_channel_start (ec : code) (ch : channel)
  | on_complete (ec : code)
  | on_stop.

#[export] Instance event_eq_dec : EqDecision event.
Proof. solve_decision. Defined.

Definition answers (e : event) : option pending :=
  match e with
  | on_started _ => Some awaits_started
  | on_address _ _ => Some awaits_address
  | on_connect _ _ => Some awaits_connect
  | on_channel_start _ _ => Some awaits_channel_start
  | on_complete _ => Some awaits_complete
  | on_stop => None
  end.

Definition handle (e : event) (s : session) : session * list call :=
  match e with
  | on_started ec => handle_started ec s
  | on_address ec sync => start_syncing ec sync s
  | on_connect ec ch => handle_connect ec ch s
  | on_channel_start ec ch => handle_channel_start ec ch s
  | on_complete ec => handle_complete ec s
  | on_stop => (set_stopped s true, [])
  end.

Fixpoint take_out (k : pending) (l : list pending) : option (list pending) :=
  match l with
  | [] => None
  | x :: l' => if decide (x = k) then Some l' else (x ::.) <$> take_out k l'
  end.

Record configuration := configure {
  the_session : session;
  in_flight : list pending
}.

(** An event is delivered only when its answer is awaited ([on_stop] at any
    time); the calls of the handler add the answers they will bring. *)
Definition deliver (e : event) (c : configuration)
    : option (configuration * list call) :=
  rest ← match answers e with
         | Some k => take_out k (in_flight c)
         | None => Some (in_flight c)
         end;
  let '(s', calls) := handle e (the_session c) in
  Some (configure s' (rest ++ omap answer_of calls), calls).

Fixpoint run (c : configuration) (events : list event)
    : option (configuration * list call) :=
  match events with
  | [] => Some (c, [])
  | e :: rest =>
      '(c', calls) ← deliver e c;
      '(c'', calls') ← run c' rest;
      Some (c'', calls ++ calls')
  end.

(** The session once [start] has been called on it. *)
Definition started (s : session) : configuration :=
  let '(s', calls) := start s in configure s' (omap answer_of calls).

(** The completions with [success] among the events. *)
Definition successes (events : list event) : Z :=
  vec_size (filter (λ e, e = on_complete error.success) events).

(** How far a session has come after some events, [n] of which were
    completions with [success] and which caused the calls [calls], for the
    quorum [q]: waiting to be started; running, with at most one answer
    awaited, and none only once the session is stopped or has reported a
    failed start; or done, having reported [success]. *)
Definition progress (q : Z) (c : configuration) (calls : list call) (n : Z)
    : Prop :=
  quorum (the_session c) = q ∧
  ((in_flight c = [awaits_started] ∧ votes_ (the_session c) = 0 ∧ n = 0 ∧
    calls = [])
   ∨ ((length (in_flight c) ≤ 1)%nat ∧ (awaits_started ∉ in_flight c) ∧
      votes_ (the_session c) = n ∧
      0 ≤ n < q ∧ (handler error.success ∉ calls) ∧
      (in_flight c = [] →
       stopped_ (the_session c) = true ∨ (∃ ec, handler ec ∈ calls)))
   ∨ (in_flight c = [] ∧ votes_ (the_session c) = q ∧ n = q ∧
      handler error.success ∈ calls)).

End handlers.

(** *** Test data: a quorum of two; peer 1 succeeds, peer 2 fails, peer 3
    succeeds *)

Definition two_votes : session := construct false 0 2 10.

Definition dialled (sync : authority) (ch : channel) (ec : code)
    : list event :=
  [on_address error.success sync; on_connect error.success ch;
   on_channel_start error.success ch; on_complete ec].

Definition three_peers : list event :=
  on_started error.success
  :: dialled 1 1%nat error.success
  ++ dialled 2 2%nat error.channel_timeout
  ++ dialled 3 3%nat error.success.

(** *** Measures of a run *)

(** The calls of the [result_handler] among the calls of the session. *)
Definition is_report (c : call) : bool :=
  match c with
  | handler _ => true
  | _ => false
  end.

Definition reports (calls : list call) : nat :=
  length (filter (λ c, is_report c = true) calls).

End session_block_sync.

(** ** The console command loop ([dispatch.cpp]) *)

Module console.

Import Stdlib.Strings.Ascii Stdlib.Strings.String.

Definition NUL : ascii := "000"%char.

(** A string literal compared with a [std::string] is taken as a pointer to
    characters, whose length is its [strlen]: it ends at its first NUL. *)
Fixpoint c_str (literal : string) : string :=
  match literal with
  | EmptyString => EmptyString
  | String c rest =>
      if bool_decide (c = NUL) then EmptyString else String c (c_str rest)
  end.

(** [command == literal], for a string literal on the right. *)
Definition equals_literal (command literal : string) : bool :=
  bool_decide (command = c_str literal).

(** The characters of the literal ["\0x03"]: NUL, 'x', '0', '3'. *)
Definition stop_literal : string := String NUL "x03".

(** [std::isspace] in the classic locale. *)
Definition is_space (c : ascii) : bool :=
  bool_decide (c = " "%char) ||
  bool_decide (9 ≤ nat_of_ascii c ≤ 13)%nat.

Fixpoint trim_left (s : string) : string :=
  match s with
  | EmptyString => EmptyString
  | String c rest => if is_space c then trim_left rest else s
  end.

Fixpoint trim_right (s : string) : string :=
  match s with
  | EmptyString => EmptyString
  | String c rest =>
      match trim_right rest with
      | EmptyString => if is_space c then EmptyString else String c EmptyString
      | kept => String c kept
      end
  end.

(** [boost::trim_copy] *)
Definition trim_copy (s : string) : string := trim_left (trim_right s).

(** What one turn of the loop does with the line [getline] read: leave the
    loop and stop the node, or hand the trimmed line to [payment_address]. *)
Inductive turn :=
  | shutdown
  | query (address : string).

#[export] Instance turn_eq_dec : EqDecision turn.
Proof. solve_decision. Defined.

Definition command_turn (command : string) : turn :=
  let trimmed := trim_copy command in
  if equals_literal command stop_literal || equals_literal trimmed "stop"
  then shutdown
  else query trimmed.

(** The loop over the lines of the input; at the end of the input [getline]
    leaves [command] empty. *)
Fixpoint command_loop (input : list string) : list turn :=
  match input with
  | [] => [command_turn ""]
  | command :: rest =>
      match command_turn command with
      | shutdown => [shutdown]
      | asked => asked :: command_loop rest
      end
  end.

(** *** Notions used in the statements *)

Fixpoint all_space (s : string) : bool :=
  match s with
  | EmptyString => true
  | String c rest => is_space c && all_space rest
  end.

Definition first_char (s : string) : option ascii :=
  match s with
  | EmptyString => None
  | String c _ => Some c
  end.

Fixpoint last_char (s : string) : option ascii :=
  match s with
  | EmptyString => None
  | String c EmptyString => Some c
  | String _ rest => last_char rest
  end.

End console.

(** ** The console entry point ([dispatch.cpp]) *)

Module dispatch.

Import Stdlib.Strings.Ascii.
Import console.

(** [console_result], by the names the code uses. *)
Inductive console_result := failure | okay | not_started.

#[export] Instance console_result_eq_dec : EqDecision console_result.
Proof. solve_decision. Defined.

(** The streams written to: the [output] and [error] arguments of
    [dispatch], and [bc::cerr]. *)
Inductive stream := the_output | the_error | bc_cerr.

#[export] Instance stream_eq_dec : EqDecision stream.
Proof. solve_decision. Defined.

(** The messages, by the names of their macros and with their arguments;
    [usage] is the line of [--help], [invalid_argument] the line for an
    unknown argument. *)
Inductive text :=
  | BN_INVALID_ADDRESS
  | BN_INITCHAIN (directory : string)
  | BN_INITCHAIN_DIR_NEW (directory message : string)
  | BN_INITCHAIN_DIR_EXISTS (directory : string)
  | BN_INITCHAIN_DIR_TEST (directory message : string)
  | BN_NODE_SHUTTING_DOWN
  | BN_NODE_START_FAIL
  | BN_NODE_STARTING (directory : string)
  | BN_UNINITIALIZED_CHAIN (directory : string)
  | BN_VERSION_MESSAGE
  | usage
  | invalid_argument (argument : string).

#[export] Instance text_eq_dec : EqDecision text.
Proof. solve_decision. Defined.

Inductive signal_number := SIGABRT | SIGTERM | SIGINT.

#[export] Instance signal_number_eq_dec : EqDecision signal_number.
Proof. solve_decision. Defined.

(** What the program does to its surroundings, in order. *)
Inductive effect :=
  | write (to : stream) (t : text)
  | create_directories (directory : string)
  | database_initialize (prefix : string) (testnet : bool)
  | exists_ (directory : string)
  | signal (number : signal_number)
  | node_start
  | fetch_history (address : string)
  | node_stop.

#[export] Instance effect_eq_dec : EqDecision effect.
Proof. solve_decision. Defined.

(** What the surroundings answer: the results of the two file-system
    calls with the value and message of their [error_code], of
    [database::initialize], of the start and the stop of the node, and of
    the test [payment_address] makes of a string; and the value of the
    macro [BLOCKCHAIN_DATABASE_PATH], which is defined elsewhere. *)
Record system := {
  blockchain_database_path : string;
  created : bool;
  create_value : Z;
  create_message : string;
  initialized : bool;
  found : bool;
  exists_value : Z;
  exists_message : string;
  started : code;
  stopped : code;
  valid_address : string → bool
}.

Definition display_version (output : stream) : list effect :=
  [write output BN_VERSION_MESSAGE].

Definition init_chain (directory : string) (testnet : bool)
    (output error : stream) (sys : system) : console_result * list effect :=
  if negb (created sys) then
    (failure,
     [create_directories directory;
      write error (if bool_decide (create_value sys = 0)
                   then BN_INITCHAIN_DIR_EXISTS directory
                   else BN_INITCHAIN_DIR_NEW directory (create_message sys))])
  else
    (if initialized sys then not_started else failure,
     [create_directories directory;
      write output (BN_INITCHAIN directory);
      database_initialize directory testnet]).

Definition verify_chain (directory : string) (error : stream) (sys : system)
    : console_result * list effect :=
  if negb (found sys) then
    (failure,
     [exists_ directory;
      write error (if bool_decide (exists_value sys = 2)
                   then BN_UNINITIALIZED_CHAIN directory
                   else BN_INITCHAIN_DIR_TEST directory (exists_message sys))])
  else (okay, [exists_ directory]).

(** [argv] is the list of all the arguments, the name of the program
    first; [argc] is its length. *)
Definition process_arguments (argv : list string) (directory : string)
    (output error : stream) (sys : system) : console_result * list effect :=
  match argv !! 1%nat with
  | Some argument =>
      if equals_literal argument "-h" || equals_literal argument "--help"
      then (not_started, [write output usage])
      else if equals_literal argument "-v"
              || equals_literal argument "--version"
      then (not_started, display_version output)
      else if equals_literal argument "-m"
              || equals_literal argument "--mainnet"
      then init_chain directory false output error sys
      else if equals_literal argument "-t"
              || equals_literal argument "--testnet"
      then init_chain directory true output error sys
      else (failure, [write error (invalid_argument argument)])
  | None => (okay, [])
  end.

(** One turn of the command loop, for the node that is running. *)
Definition serve (output : stream) (sys : system) (t : turn) : list effect :=
  match t with
  | shutdown => [write output BN_NODE_SHUTTING_DOWN]
  | query address =>
      if valid_address sys address then [fetch_history address]
      else [write output BN_INVALID_ADDRESS]
  end.

(** [dispatch], with the lines that [getline] will read from [bc::cin]. *)
Definition dispatch (argv : list string) (input : list string) (sys : system)
    : console_result * list effect :=
  let directory := blockchain_database_path sys in
  let '(result, told) :=
    process_arguments argv directory the_output the_error sys in
  if negb (bool_decide (result = okay)) then (result, told)
  else
    let '(result, checked) := verify_chain directory bc_cerr sys in
    if negb (bool_decide (result = okay)) then (result, told ++ checked)
    else
      let begun :=
        told ++ checked
        ++ [signal SIGABRT; signal SIGTERM; signal SIGINT;
            write the_output (BN_NODE_STARTING directory); node_start] in
      if error.is_error (started sys)
      then (not_started, begun ++ [write the_output BN_NODE_START_FAIL])
      else
        (if error.is_error (stopped sys) then failure else okay,
         begun ++ (command_loop input ≫= serve the_output sys)
         ++ [node_stop]).

(** *** Test data: a system whose directory exists and whose node starts
    and stops, and which takes the strings beginning with 1 for addresses *)

Definition ready : system :=
  {| blockchain_database_path := "blockchain";
     created := false; create_value := 0; create_message := "";
     initialized := true;
     found := true; exists_value := 0; exists_message := "";
     started := error.success; stopped := error.success;
     valid_address := λ s, bool_decide (first_char s = Some "1"%char) |}.

End dispatch.

(** * Properties of the header-sync protocol *)

Module header_sync_properties.

Import protocol_header_sync.

(** *** The list operations behind [rollback] *)

Section find.
Context {A : Type} (P : A → Prop) `{!∀ x, Decision (P x)}.

Lemma list_find_take_Some (l : list A) (i : nat) (x : A) :
  list_find P l = Some (i, x) → list_find P (take (S i) l) = Some (i, x).
Proof.
  rewrite !list_find_Some. intros (Hi & HP & Hleast).
  split_and!; [| done |].
  - rewrite lookup_take_lt; [done | lia].
  - intros j y Hj Hlt. apply (Hleast j y); [| done].
    by rewrite lookup_take_lt in Hj by lia.
Qed.

Lemma list_find_take_None (l : list A) (n : nat) :
  list_find P l = None → list_find P (take n l) = None.
Proof. rewrite !list_find_None. apply Forall_take. Qed.

Lemma list_find_lt (l : list A) (i : nat) (x : A) :
  list_find P l = Some (i, x) → (i < length l)%nat.
Proof. rewrite list_find_Some. intros (Hi & _). by eapply lookup_lt_Some. Qed.
End find.

Lemma resize_1_cons (x h : hash_digest) (l : list hash_digest) :
  resize 1 x (h :: l) = [h].
Proof. simpl. by rewrite resize_0. Qed.

Lemma rollback_scan_Some rc hashes kept :
  rollback_scan rc hashes = Some kept ↔
  ∃ pre it post i,
    rc = pre ++ it :: post ∧
    Forall (λ c, checkpoint.hash c ∉ hashes) pre ∧
    list_find (λ h, h = checkpoint.hash it) hashes
      = Some (i, checkpoint.hash it) ∧
    kept = take (S i) hashes.
Proof.
  revert kept. induction rc as [| c rc IH]; intros kept; simpl.
  - split; [done |]. intros (pre & it & post & i & Hrc & _).
    by destruct pre.
  - destruct (list_find _ hashes) as [[i h] |] eqn:Hfind.
    + assert (h = checkpoint.hash c) as ->.
      { by apply list_find_Some in Hfind as (_ & ? & _). }
      split.
      * intros [= <-]. exists [], c, rc, i. by rewrite Forall_nil.
      * intros (pre & it & post & j & Hrc & Hpre & Hit & ->).
        destruct pre as [| c' pre]; simplify_eq/=; [done |].
        apply Forall_cons in Hpre as [Hc _]. exfalso. apply Hc.
        apply list_find_Some in Hfind as (Hi & _).
        by eapply list_elem_of_lookup_2.
    + rewrite IH. apply list_find_None in Hfind.
      split.
      * intros (pre & it & post & i & -> & Hpre & Hit & ->).
        exists (c :: pre), it, post, i. split_and!; [done | | done | done].
        apply Forall_cons. split; [| done].
        intros Hin. rewrite Forall_forall in Hfind. by apply (Hfind _ Hin).
      * intros (pre & it & post & i & Hrc & Hpre & Hit & ->).
        destruct pre as [| c' pre]; simplify_eq/=.
        -- apply list_find_Some in Hit as (Hi & _).
           apply list_elem_of_lookup_2 in Hi.
           rewrite Forall_forall in Hfind. by destruct (Hfind _ Hi).
        -- apply Forall_cons in Hpre as [_ Hpre]. by exists pre, it, post, i.
Qed.

Lemma rollback_scan_None rc hashes :
  rollback_scan rc hashes = None ↔
  Forall (λ c, checkpoint.hash c ∉ hashes) rc.
Proof.
  induction rc as [| c rc IH]; simpl; [by rewrite Forall_nil |].
  rewrite Forall_cons.
  destruct (list_find _ hashes) as [[i h] |] eqn:Hfind.
  - split; [done |]. intros [Hc _]. exfalso. apply Hc.
    apply list_find_Some in Hfind as (Hi & -> & _).
    by eapply list_elem_of_lookup_2.
  - rewrite IH. apply list_find_None in Hfind.
    split; [| by intros [_ Hrc]]. intros Hrc. split; [| done].
    intros Hin. rewrite Forall_forall in Hfind. by apply (Hfind _ Hin).
Qed.

Lemma rollback_scan_take rc hashes kept :
  rollback_scan rc hashes = Some kept →
  ∃ i, (i < length hashes)%nat ∧ kept = take (S i) hashes.
Proof.
  intros (pre & it & post & i & _ & _ & Hit & ->)%rollback_scan_Some.
  exists i. split; [by eapply list_find_lt | done].
Qed.

Lemma rollback_scan_idemp rc hashes kept :
  rollback_scan rc hashes = Some kept → rollback_scan rc kept = Some kept.
Proof.
  rewrite !rollback_scan_Some.
  intros (pre & it & post & i & -> & Hpre & Hit & ->).
  exists pre, it, post, i. split_and!; [done | | |].
  - eapply Forall_impl; [exact Hpre |]. intros c Hc Hin. apply Hc.
    by eapply subseteq_take.
  - by apply list_find_take_Some.
  - rewrite take_take. f_equal. lia.
Qed.

Lemma rollback_scan_absent rc hashes n :
  rollback_scan rc hashes = None → rollback_scan rc (take n hashes) = None.
Proof.
  rewrite !rollback_scan_None. intros Habsent.
  eapply Forall_impl; [exact Habsent |]. intros c Hc Hin. apply Hc.
  by eapply subseteq_take.
Qed.

Lemma rollback_hashes_scan checkpoints hashes :
  rollback_hashes checkpoints hashes =
    default (resize 1 null_hash hashes)
            (rollback_scan (reverse checkpoints) hashes).
Proof.
  unfold rollback_hashes. case_bool_decide as Hnil; [by subst |].
  by destruct (rollback_scan _ _).
Qed.

Lemma rollback_hashes_length checkpoints hashes :
  (1 ≤ length (rollback_hashes checkpoints hashes))%nat.
Proof.
  rewrite rollback_hashes_scan.
  destruct (rollback_scan _ _) as [kept |] eqn:Hscan; simpl.
  - apply rollback_scan_take in Hscan as (i & Hi & ->).
    rewrite length_take. lia.
  - by rewrite length_resize.
Qed.

Lemma rollback_hashes_idemp checkpoints hashes :
  rollback_hashes checkpoints (rollback_hashes checkpoints hashes)
  = rollback_hashes checkpoints hashes.
Proof.
  rewrite !rollback_hashes_scan.
  destruct (rollback_scan _ hashes) as [kept |] eqn:Hscan; simpl.
  - by rewrite (rollback_scan_idemp _ _ _ Hscan).
  - destruct hashes as [| h hashes].
    + change (resize 1 null_hash []) with [null_hash].
      destruct (rollback_scan _ [null_hash]) as [kept |] eqn:Hone; [| done].
      apply rollback_scan_take in Hone as (i & Hi & ->). by destruct i.
    + rewrite resize_1_cons.
      pose proof (rollback_scan_absent _ _ 1 Hscan) as Hone.
      simpl in Hone. rewrite take_0 in Hone. by rewrite Hone.
Qed.


(** *** [merge_headers] *)

Lemma merge_loop_frame elements p previous :
  ∃ hashes, (merge_loop p previous elements).1 = set_hashes p hashes.
Proof.
  revert p previous. induction elements as [| block rest IH]; intros p previous.
  - exists (hashes_ p). by destruct p.
  - simpl. destruct (_ || _).
    + by eexists.
    + destruct (IH (set_hashes p (hashes_ p ++ [header.hash block]))
                  (header.hash block)) as [hashes ->].
      by eexists.
Qed.

Lemma merge_loop_true elements p previous p' :
  merge_loop p previous elements = (p', true) →
  p' = set_hashes p (hashes_ p ++ (header.hash <$> elements)).
Proof.
  revert p previous. induction elements as [| block rest IH]; intros p previous.
  - intros [= <-]. simpl. rewrite app_nil_r. by destruct p.
  - simpl. destruct (_ || _); [done |].
    intros ->%IH. simpl. by rewrite <- app_assoc.
Qed.

Lemma merge_loop_false elements p previous k block :
  last (hashes_ p) = Some previous →
  elements !! k = Some block →
  fails_at p elements k block →
  ∃ j, (j ≤ k)%nat ∧
    merge_loop p previous elements =
      (set_hashes p (rollback_hashes (checkpoints_ p)
                       (hashes_before p elements j)), false).
Proof.
  revert p previous k.
  induction elements as [| first rest IH]; intros p previous k Hlast Hk Hfail;
    [done |].
  simpl. destruct (_ || _) eqn:Hcheck.
  - exists 0%nat. split; [lia |]. unfold rollback, hashes_before. simpl.
    by rewrite app_nil_r.
  - apply orb_false_elim in Hcheck as [Hlink Hvalid].
    apply negb_false_iff in Hlink, Hvalid. apply bool_decide_eq_true in Hlink.
    destruct k as [| k].
    + exfalso. simplify_eq/=. unfold fails_at, hashes_before in Hfail.
      simpl in Hfail. rewrite app_nil_r in Hfail.
      destruct Hfail as [Hbad | Hbad].
      * by rewrite Hlast in Hbad.
      * unfold next_height in *. simpl in *. congruence.
    + simpl in Hk.
      destruct (IH (set_hashes p (hashes_ p ++ [header.hash first]))
                  (header.hash first) k) as (j & Hj & ->).
      * simpl. apply last_snoc.
      * done.
      * unfold fails_at, hashes_before in *. simpl in *.
        by rewrite <- app_assoc.
      * exists (S j). split; [lia |]. unfold hashes_before. simpl.
        by rewrite <- app_assoc.
Qed.


(** *** [rollback] on a sorted checkpoint list *)

Lemma ascending_before (l1 l2 : list checkpoint.t) (x c : checkpoint.t) :
  ascending (l1 ++ x :: l2) → c ∈ l1 →
  checkpoint.height c ≤ checkpoint.height x.
Proof.
  intros Hsorted (a & Ha)%list_elem_of_lookup.
  apply (Hsorted a (length l1) c x).
  - by apply lookup_app_l_Some.
  - by rewrite list_lookup_middle.
  - apply lookup_lt_Some in Ha. lia.
Qed.

Lemma rollback_hashes_cut_back checkpoints hashes :
  ascending checkpoints → hashes ≠ [] →
  cut_back checkpoints hashes (rollback_hashes checkpoints hashes).
Proof.
  intros Hsorted Hne. rewrite rollback_hashes_scan.
  destruct (rollback_scan _ _) as [kept |] eqn:Hscan; simpl.
  - left.
    apply rollback_scan_Some in Hscan
      as (pre & top & post & i & Hrev & Hpre & Hfind & ->).
    assert (checkpoints = reverse post ++ top :: reverse pre) as Hsplit.
    { rewrite <- (reverse_involutive checkpoints), Hrev, reverse_app,
        reverse_cons, <- app_assoc. done. }
    apply list_find_Some in Hfind as (Hi & _ & Hleast).
    exists top, i. split_and!; [| done | | | done].
    + rewrite Hsplit. apply elem_of_app. right. apply elem_of_cons. by left.
    + intros j Hj Hat. by apply (Hleast j _ Hat Hj).
    + intros c Hc Hin. rewrite Hsplit in Hc, Hsorted.
      apply elem_of_app in Hc as [Hc | Hc].
      * by eapply ascending_before.
      * apply elem_of_cons in Hc as [-> | Hc]; [lia |].
        rewrite elem_of_reverse in Hc. rewrite Forall_forall in Hpre.
        by destruct (Hpre _ Hc).
  - right. apply rollback_scan_None in Hscan. split_and!.
    + intros c Hc. rewrite Forall_forall in Hscan. apply Hscan.
      by apply elem_of_reverse.
    + destruct hashes; [done |]. by rewrite resize_1_cons.
    + by rewrite length_resize.
Qed.

(** *** What a handler leaves alone *)

Lemma handle_receive_frame ec message p p' calls :
  handle_receive ec message p = Some (p', calls) →
  ∃ hashes stopped, p' = set_stopped (set_hashes p hashes) stopped.
Proof.
  unfold handle_receive, send_get_headers, merge_headers, complete,
    headers_complete.
  intros Hrun.
  destruct (stopped_ p) eqn:Hstopped.
  { injection Hrun as <- <-. exists (hashes_ p), true.
    destruct p; simpl in *. by subst. }
  destruct (error.is_error ec).
  { injection Hrun as <- <-. exists (hashes_ p), true. by destruct p. }
  destruct (last (hashes_ p)) as [previous |]; [| done]. simpl in Hrun.
  destruct (merge_loop_frame (message.elements message) p previous)
    as [hashes Hframe].
  destruct (merge_loop _ _ _) as [q merged]. simpl in Hframe. subst q.
  assert (set_hashes p hashes
          = set_stopped (set_hashes p hashes) false) as Hsame.
  { destruct p; simpl in *. by subst. }
  repeat case_match; simplify_eq/=; try congruence;
    try (by exists hashes, true).
  destruct (last hashes); simplify_eq/=. by exists hashes, false.
Qed.

Lemma handle_event_frame ec p p' calls :
  handle_event ec p = Some (p', calls) →
  ∃ second stopped, p' = set_stopped (set_current_second p second) stopped.
Proof.
  unfold handle_event, current_rate, complete, headers_complete.
  intros Hrun.
  assert (∀ second, set_current_second p second =
            set_stopped (set_current_second p second) (stopped_ p)) as Hsame.
  { by destruct p. }
  assert (p = set_current_second p (current_second_ p)) as Hself.
  { by destruct p. }
  repeat case_match; simplify_option_eq; eauto.
  all: try (eexists (current_second_ p), true; by destruct p).
Qed.


(** *** The invariant of a run: a non-empty list, a counted clock *)

Lemma size_t_small z : 0 ≤ z < size_max → size_t z = z.
Proof. intros. unfold size_t. by apply Z.mod_small. Qed.

Lemma size_t_bounds z : 0 ≤ z → 0 ≤ size_t z ≤ z.
Proof.
  intros. unfold size_t. split.
  - apply Z.mod_pos_bound. by compute.
  - apply Z.mod_le; [done | by compute].
Qed.

Lemma merge_loop_nonempty elements p previous :
  hashes_ p ≠ [] → hashes_ (merge_loop p previous elements).1 ≠ [].
Proof.
  revert p previous. induction elements as [| block rest IH];
    intros p previous Hne; simpl; [done |].
  destruct (_ || _).
  - simpl. pose proof (rollback_hashes_length (checkpoints_ p) (hashes_ p)).
    destruct (rollback_hashes _ _); [simpl in *; lia | done].
  - apply IH. simpl. by destruct (hashes_ p).
Qed.

Lemma handle_receive_total ec message p :
  hashes_ p ≠ [] →
  ∃ p' calls, handle_receive ec message p = Some (p', calls) ∧
              hashes_ p' ≠ [].
Proof.
  intros Hne. unfold handle_receive, merge_headers, complete, headers_complete.
  destruct (stopped_ p); [by eauto |].
  destruct (error.is_error ec); [by eauto |].
  destruct (last (hashes_ p)) as [previous |] eqn:Hlast;
    [| by apply last_None in Hlast].
  simpl.
  pose proof (merge_loop_nonempty (message.elements message) p previous Hne)
    as Hmerged.
  destruct (merge_loop _ _ _) as [q merged]. simpl in Hmerged.
  destruct merged; simpl; [| by eauto].
  case_bool_decide; [| by eauto].
  unfold send_get_headers. destruct (stopped_ q); [by eauto |].
  destruct (last (hashes_ q)) as [back |] eqn:Hback;
    [by simpl; eauto | by apply last_None in Hback].
Qed.

Lemma handle_event_seconds ec p p' calls :
  handle_event ec p = Some (p', calls) → 0 ≤ current_second_ p →
  0 ≤ current_second_ p' ≤ current_second_ p + 1.
Proof.
  unfold handle_event, current_rate, complete, headers_complete.
  intros Hrun Hsecond.
  pose proof (size_t_bounds (current_second_ p + 1)).
  repeat case_match; simplify_option_eq; simpl; lia.
Qed.

Lemma handle_event_total ec p :
  0 ≤ current_second_ p → current_second_ p + 1 < size_max →
  is_Some (handle_event ec p).
Proof.
  intros Hsecond Hbound. unfold handle_event, current_rate.
  repeat case_match; try done; simpl in *.
  all: rewrite size_t_small in * by lia.
  all: try (case_bool_decide; [lia |]); simpl in *;
    repeat case_match; done.
Qed.

Lemma deliver_step e p p' calls :
  deliver e p = Some (p', calls) →
  hashes_ p ≠ [] → 0 ≤ current_second_ p →
  settings p' = settings p ∧ hashes_ p' ≠ [] ∧
  0 ≤ current_second_ p' ≤ current_second_ p + 1.
Proof.
  intros Hrun Hne Hsecond. destruct e as [| ec | ec message | ec |]; simpl in Hrun.
  - unfold start, send_get_headers in Hrun.
    repeat case_match; simplify_option_eq; split_and!; done || lia.
  - unfold handle_send, complete, headers_complete in Hrun.
    repeat case_match; simplify_eq/=; split_and!; done || lia.
  - destruct (handle_receive_total ec message p Hne) as (q & calls' & Hq & Hq').
    rewrite Hrun in Hq. simplify_eq.
    apply handle_receive_frame in Hrun as (hashes & stopped & ->).
    simpl. split_and!; done || lia.
  - pose proof (handle_event_seconds _ _ _ _ Hrun Hsecond).
    apply handle_event_frame in Hrun as (second & stopped & ->).
    simpl in *. split_and!; done || lia.
  - simplify_eq/=. split_and!; done || lia.
Qed.

Lemma deliver_total e p :
  hashes_ p ≠ [] → 0 ≤ current_second_ p →
  current_second_ p + 1 < size_max → is_Some (deliver e p).
Proof.
  intros Hne Hsecond Hbound. destruct e as [| ec | ec message | ec |]; simpl.
  - unfold start, send_get_headers.
    destruct (last (hashes_ p)) eqn:Hlast; [| by apply last_None in Hlast].
    repeat case_match; done.
  - done.
  - destruct (handle_receive_total ec message p Hne) as (q & calls & -> & _).
    done.
  - by apply handle_event_total.
  - done.
Qed.

Lemma run_invariant events p p' calls :
  run p events = Some (p', calls) →
  hashes_ p ≠ [] → 0 ≤ current_second_ p →
  settings p' = settings p ∧ hashes_ p' ≠ [] ∧
  0 ≤ current_second_ p' ≤ current_second_ p + vec_size events.
Proof.
  unfold vec_size. revert p calls.
  induction events as [| e rest IH]; intros p calls Hrun Hne Hsecond.
  - simplify_eq/=. split_and!; done || lia.
  - simpl in Hrun.
    destruct (deliver e p) as [[q calls1] |] eqn:Hstep; [| done].
    simpl in Hrun.
    destruct (run q rest) as [[q' calls2] |] eqn:Hrest; [| done].
    simplify_eq/=.
    apply deliver_step in Hstep as (Hset & Hq & Hqs); [| done..].
    apply IH in Hrest as (Hset' & Hq' & Hqs'); [| done | lia].
    split_and!; [congruence | done | lia | lia].
Qed.

Lemma run_total events p :
  hashes_ p ≠ [] → 0 ≤ current_second_ p →
  current_second_ p + vec_size events < size_max →
  is_Some (run p events).
Proof.
  unfold vec_size. revert p.
  induction events as [| e rest IH]; intros p Hne Hsecond Hbound; [done |].
  simpl in *.
  destruct (deliver_total e p) as [[q calls] Hstep]; [done | done | lia |].
  rewrite Hstep. simpl.
  apply deliver_step in Hstep as (_ & Hq & Hqs); [| done..].
  destruct (IH q) as [[q' calls'] ->]; [done | lia | lia |]. done.
Qed.

Lemma construct_Some stopped start_height minimum_rate first_height hashes
    checkpoints p :
  construct stopped start_height minimum_rate first_height hashes checkpoints
    = Some p →
  hashes ≠ [] ∧
  p = make hashes 0 minimum_rate (vec_size hashes) first_height
        (target first_height hashes checkpoints) checkpoints stopped
        start_height.
Proof. unfold construct. case_bool_decide; naive_solver. Qed.


Lemma merge_headers_true p message p' :
  merge_headers p message = Some (p', true) →
  hashes_ p ≠ [] ∧
  p' = set_hashes p (hashes_ p ++ (header.hash <$> message.elements message)).
Proof.
  unfold merge_headers.
  destruct (last (hashes_ p)) as [previous |] eqn:Hlast; [| done].
  simpl. intros [= Hloop]. split.
  - intros Hnil. by rewrite Hnil in Hlast.
  - by eapply merge_loop_true.
Qed.

Lemma handle_receive_merged p message p' :
  stopped_ p = false → merge_headers p message = Some (p', true) →
  handle_receive error.success message p =
    if bool_decide (full_headers ≤ vec_size (message.elements message))
    then back ← last (hashes_ p'); Some (p', request back)
    else Some (set_stopped p' true,
               completion (if bool_decide (target_height_ p' < next_height p')
                           then error.success else error.operation_failed)).
Proof.
  intros Hstopped Hmerge. unfold handle_receive. rewrite Hstopped, Hmerge.
  simpl. apply merge_headers_true in Hmerge as [_ ->].
  unfold send_get_headers. simpl. by rewrite Hstopped.
Qed.

(** *** Completion on a short batch *)

(** C1: in every run of the protocol, a successfully merged headers message
    that is shorter than the full batch completes the attempt, with
    [success] if and only if [next_height = first_height + |HashList|]
    exceeds [target_height], and with [operation_failed] otherwise;
    [target_height] is the value fixed by the constructor from the initial
    list: [max (last checkpoint height) (first_height + |HashList| - 1)],
    and [first_height + |HashList| - 1] when there is no checkpoint. *)
Theorem short_batch_completion stopped start_height minimum_rate first_height
    hashes checkpoints p0 events p calls message p' :
  construct stopped start_height minimum_rate first_height hashes checkpoints
    = Some p0 →
  run p0 events = Some (p, calls) →
  stopped_ p = false →
  merge_headers p message = Some (p', true) →
  vec_size (message.elements message) < full_headers →
  0 ≤ first_height →
  first_height + vec_size hashes < size_max →
  first_height + vec_size (hashes_ p') < size_max →
  let target_height :=
    match last checkpoints with
    | Some back => Z.max (checkpoint.height back)
                         (first_height + vec_size hashes - 1)
    | None => first_height + vec_size hashes - 1
    end in
  let next_height := first_height + vec_size (hashes_ p') in
  target_height_ p = target_height ∧
  ∃ ec,
    handle_receive error.success message p =
      Some (set_stopped p' true, completion ec) ∧
    (ec = error.success ↔ target_height < next_height) ∧
    (ec = error.operation_failed ↔ ¬ target_height < next_height).
Proof.
  intros (Hne & ->)%construct_Some Hrun Hstopped Hmerge Hshort Hfirst Hfits
    Hfits'.
  apply run_invariant in Hrun as (Hsettings & _); [| done | done].
  injection Hsettings as _ _ Hfh Hth _ _. simpl in *.
  assert (1 ≤ vec_size hashes) as Hseed.
  { unfold vec_size. destruct hashes; [done | simpl; lia]. }
  assert (target first_height hashes checkpoints =
          match last checkpoints with
          | Some back => Z.max (checkpoint.height back)
                               (first_height + vec_size hashes - 1)
          | None => first_height + vec_size hashes - 1
          end) as Htarget.
  { unfold target. by rewrite !size_t_small by (rewrite ?size_t_small; lia). }
  split; [congruence |].
  rewrite (handle_receive_merged p message p' Hstopped Hmerge).
  rewrite bool_decide_eq_false_2 by lia.
  apply merge_headers_true in Hmerge as [_ Hp'].
  assert (PeanoNat.Nat.le 0 (length (hashes_ p'))) by lia.
  assert (next_height p' = first_height + vec_size (hashes_ p')) as ->.
  { unfold next_height. rewrite Hp' at 2. simpl. rewrite Hfh.
    rewrite size_t_small; unfold vec_size in *; lia. }
  assert (target_height_ p' = target_height_ p) as -> by (by rewrite Hp').
  rewrite Hth, Htarget. eexists. split; [done |].
  case_bool_decide; naive_solver.
Qed.

(** *** Failure of a header *)

Lemma set_hashes_id p : set_hashes p (hashes_ p) = p.
Proof. by destruct p. Qed.

Lemma fails_at_next p first rest i b :
  fails_at (set_hashes p (hashes_ p ++ [header.hash first])) rest i b ↔
  fails_at p (first :: rest) (S i) b.
Proof.
  unfold fails_at, hashes_before. simpl. by rewrite <- app_assoc.
Qed.

Lemma merge_loop_first_failure elements p previous k block :
  last (hashes_ p) = Some previous →
  elements !! k = Some block →
  fails_at p elements k block →
  ∃ j bad, (j ≤ k)%nat ∧
    elements !! j = Some bad ∧
    fails_at p elements j bad ∧
    (∀ i b, (i < j)%nat → elements !! i = Some b →
            ¬ fails_at p elements i b) ∧
    merge_loop p previous elements =
      (set_hashes p (rollback_hashes (checkpoints_ p)
                       (hashes_before p elements j)), false).
Proof.
  revert p previous k.
  induction elements as [| first rest IH]; intros p previous k Hlast Hk Hfail;
    [done |].
  simpl. destruct (_ || _) eqn:Hcheck.
  - exists 0%nat, first. split_and!; [lia | done | | intros i b Hi; lia |].
    + unfold fails_at, hashes_before. simpl.
      rewrite app_nil_r, set_hashes_id, Hlast.
      apply orb_true_iff in Hcheck as [Hlink | Hvalid].
      * left. apply negb_true_iff, bool_decide_eq_false in Hlink. congruence.
      * right. by apply negb_true_iff in Hvalid.
    + unfold rollback, hashes_before. simpl. by rewrite app_nil_r.
  - apply orb_false_elim in Hcheck as [Hlink Hvalid].
    apply negb_false_iff in Hlink, Hvalid. apply bool_decide_eq_true in Hlink.
    assert (¬ fails_at p (first :: rest) 0 first) as Hfirst.
    { unfold fails_at, hashes_before. simpl.
      rewrite app_nil_r, set_hashes_id, Hlast. intros [Hbad | Hbad]; congruence. }
    destruct k as [| k]; [by simplify_eq/= |]. simpl in Hk.
    destruct (IH (set_hashes p (hashes_ p ++ [header.hash first]))
                (header.hash first) k)
      as (j & bad & Hj & Hbad & Hfails & Hbefore & ->).
    + simpl. apply last_snoc.
    + done.
    + by apply fails_at_next.
    + exists (S j), bad. split_and!; [lia | done | by apply fails_at_next | |].
      * intros [| i] b Hi Hb; [by simplify_eq/= |]. simpl in Hb.
        rewrite <- fails_at_next. apply Hbefore; [lia | done].
      * unfold hashes_before. simpl. by rewrite <- app_assoc.
Qed.

(** C2: when a header of a received message fails the linkage check (its
    [previous_block_hash] against the last element of the list as it stands
    when the header is reached) or checkpoint validation at the height it
    would occupy, the protocol rolls back and completes the attempt with
    [previous_block_invalid].  What is rolled back is the list as it stands
    at the first header of the message that fails, the headers before it
    having been appended; the rollback cuts that list immediately after
    the element matching the highest checkpoint whose hash is in it,
    keeping that element, and down to a single element when no checkpoint
    hash is in it. *)
Theorem failed_header_rolls_back p message k block :
  stopped_ p = false →
  hashes_ p ≠ [] →
  ascending (checkpoints_ p) →
  message.elements message !! k = Some block →
  fails_at p (message.elements message) k block →
  ∃ j bad, (j ≤ k)%nat ∧
    message.elements message !! j = Some bad ∧
    fails_at p (message.elements message) j bad ∧
    (∀ i b, (i < j)%nat → message.elements message !! i = Some b →
            ¬ fails_at p (message.elements message) i b) ∧
    let hashes := hashes_before p (message.elements message) j in
    let kept := hashes_ (rollback (set_hashes p hashes)) in
    handle_receive error.success message p =
      Some (set_stopped (set_hashes p kept) true,
            completion error.previous_block_invalid) ∧
    cut_back (checkpoints_ p) hashes kept.
Proof.
  intros Hstopped Hne Hsorted Hk Hfail.
  destruct (last (hashes_ p)) as [previous |] eqn:Hlast;
    [| by apply last_None in Hlast].
  destruct (merge_loop_first_failure _ _ _ _ _ Hlast Hk Hfail)
    as (j & bad & Hj & Hbad & Hfails & Hbefore & Hloop).
  exists j, bad. split_and!; [done | done | done | done |]. simpl. split.
  - unfold handle_receive, merge_headers. rewrite Hstopped, Hlast. simpl.
    by rewrite Hloop.
  - apply rollback_hashes_cut_back; [done |].
    unfold hashes_before. by destruct (hashes_ p).
Qed.

(** *** Continuation on a full batch *)

(** C3, as the code has it: after a successful merge the protocol issues
    another [get_headers], whose locator is the new last hash, and does not
    complete, if and only if the message held at least [full_headers = 2000]
    headers; it completes the attempt if and only if the message held
    fewer. *)
Theorem full_batch_continuation p message p' :
  stopped_ p = false →
  merge_headers p message = Some (p', true) →
  ∃ q calls,
    handle_receive error.success message p = Some (q, calls) ∧
    ((∃ back, last (hashes_ p') = Some back ∧ q = p' ∧ calls = request back)
       ↔ full_headers ≤ vec_size (message.elements message)) ∧
    ((∃ ec, q = set_stopped p' true ∧ calls = completion ec)
       ↔ vec_size (message.elements message) < full_headers).
Proof.
  intros Hstopped Hmerge.
  rewrite (handle_receive_merged p message p' Hstopped Hmerge).
  apply merge_headers_true in Hmerge as [Hne Hp'].
  destruct (last (hashes_ p')) as [back |] eqn:Hback; last first.
  { apply last_None in Hback. rewrite Hp' in Hback. simpl in Hback.
    by destruct (hashes_ p). }
  case_bool_decide as Hfull; simpl.
  - exists p', (request back). split; [done |]. split.
    + split; [done | by eauto].
    + split; [| lia]. by intros (ec & _ & [=]).
  - eexists _, _. split; [done |]. split.
    + split; [| lia]. by intros (? & _ & _ & [=]).
    + split; [lia | by eauto].
Qed.


(** *** Rate-based eviction *)

Lemma deliver_growth e p p' calls :
  deliver e p = Some (p', calls) →
  stopped_ p' = false →
  stopped_ p = false ∧ ∃ more, hashes_ p' = hashes_ p ++ more.
Proof.
  intros Hstep Hrunning.
  assert (hashes_ p = hashes_ p ++ []) as Hsame by (by rewrite app_nil_r).
  destruct e as [| ec | ec message | ec |]; simpl in Hstep.
  - unfold start, send_get_headers in Hstep.
    repeat case_match; simplify_option_eq; eauto.
  - unfold handle_send, complete, headers_complete in Hstep.
    repeat case_match; simplify_eq/=; eauto.
  - unfold handle_receive, complete, headers_complete in Hstep.
    destruct (stopped_ p) eqn:Hstopped; [simplify_eq/=; congruence |].
    destruct (error.is_error ec); [by simplify_eq/= |].
    destruct (merge_headers p message) as [[q merged] |] eqn:Hmerge; [| done].
    simpl in Hstep. destruct merged; simpl in Hstep; [| by simplify_eq/=].
    apply merge_headers_true in Hmerge as [_ ->].
    case_bool_decide; [| by simplify_eq/=].
    unfold send_get_headers in Hstep.
    repeat case_match; simplify_option_eq; eauto.
  - unfold handle_event, current_rate, complete, headers_complete in Hstep.
    repeat case_match; simplify_option_eq; eauto.
  - by simplify_eq/=.
Qed.

Lemma run_growth events p p' calls :
  run p events = Some (p', calls) →
  stopped_ p' = false →
  stopped_ p = false ∧ ∃ more, hashes_ p' = hashes_ p ++ more.
Proof.
  revert p calls. induction events as [| e rest IH]; intros p calls Hrun Hrunning.
  - simplify_eq/=. split; [done |]. exists []. by rewrite app_nil_r.
  - simpl in Hrun.
    destruct (deliver e p) as [[q calls1] |] eqn:Hstep; [| done].
    simpl in Hrun.
    destruct (run q rest) as [[q' calls2] |] eqn:Hrest; [| done].
    simplify_eq/=.
    destruct (IH _ _ Hrest Hrunning) as (Hq & more2 & Hmore2).
    destruct (deliver_growth _ _ _ _ Hstep Hq) as (Hp & more1 & Hmore1).
    split; [done |]. exists (more1 ++ more2).
    by rewrite Hmore2, Hmore1, app_assoc.
Qed.

(** C5: on a timer tick of a protocol that has not completed,
    [current_second] is incremented and
    [rate = (|HashList| - start_size) / current_second] is computed,
    [start_size] being the length the list had when the protocol was
    constructed; the protocol completes with [channel_timeout] if and only
    if the rate is below [minimum_rate] and resets the timer otherwise;
    hence, when fewer than [minimum_rate * T] hashes have been added by the
    tick that ends second [T], that tick completes with
    [channel_timeout]. *)
Theorem rate_eviction stopped start_height minimum_rate first_height hashes
    checkpoints p0 events p calls0 ec :
  construct stopped start_height minimum_rate first_height hashes checkpoints
    = Some p0 →
  run p0 events = Some (p, calls0) →
  stopped_ p = false →
  ec = error.success ∨ ec = error.channel_timeout →
  current_second_ p + 1 < size_max →
  vec_size (hashes_ p) < size_max →
  let T := current_second_ p + 1 in
  let added := vec_size (hashes_ p) - vec_size hashes in
  let rate := added / T in
  start_size_ p = vec_size hashes ∧
  minimum_rate_ p = minimum_rate ∧
  0 ≤ added ∧
  ∃ q calls,
    handle_event ec p = Some (q, calls) ∧
    current_second_ q = T ∧
    current_rate (set_current_second p T) = Some rate ∧
    (calls = completion error.channel_timeout ↔ rate < minimum_rate) ∧
    (calls = [reset_timer] ↔ ¬ rate < minimum_rate) ∧
    (added < minimum_rate * T → calls = completion error.channel_timeout).
Proof.
  intros (Hne & ->)%construct_Some Hrun Hrunning Htick Hbound Hsize T added
    rate.
  destruct (run_growth _ _ _ _ Hrun Hrunning) as (_ & more & Hmore).
  apply run_invariant in Hrun as (Hsettings & _ & Hsecond); [| done | done].
  injection Hsettings as Hrate Hstart _ _ _ _. simpl in *.
  assert (0 ≤ added) as Hadded.
  { unfold added, vec_size. rewrite Hmore, length_app. lia. }
  split_and!; [done | done | done |].
  assert (0 ≤ vec_size (hashes_ p) - vec_size hashes < size_max) as Hfit.
  { unfold added in Hadded. unfold vec_size in *. lia. }
  assert (handle_event ec p =
          if bool_decide (rate < minimum_rate)
          then Some (set_stopped (set_current_second p T) true,
                     completion error.channel_timeout)
          else Some (set_current_second p T, [reset_timer])) as ->.
  { unfold handle_event, current_rate.
    destruct Htick as [-> | ->]; simpl;
      rewrite Hrate, Hstart; rewrite !size_t_small by lia;
      by rewrite bool_decide_eq_false_2 by lia. }
  assert (current_rate (set_current_second p T) = Some rate) as Hquotient.
  { unfold current_rate. simpl. rewrite bool_decide_eq_false_2 by lia.
    rewrite Hstart. by rewrite size_t_small by lia. }
  assert (added < minimum_rate * T → rate < minimum_rate) as Hgate.
  { intros Hfew. apply Z.div_lt_upper_bound; lia. }
  case_bool_decide as Hlow; eexists _, _; (split; [done |]); simpl.
  - split_and!; [done | done | by split | | done].
    split; [by intros [=] | by intros []].
  - split_and!; [done | done | | by split |].
    + split; [by intros [=] | by intros ?].
    + intros Hfew. by apply Hgate in Hfew.
Qed.

(** *** Rollback *)

(** C7: for every hash list and every checkpoint list, rolling back twice in
    succession gives the list that rolling back once gives. *)
Theorem rollback_idempotent :
  (∀ checkpoints hashes,
     rollback_hashes checkpoints (rollback_hashes checkpoints hashes)
     = rollback_hashes checkpoints hashes) ∧
  (∀ p, rollback (rollback p) = rollback p).
Proof.
  split; [apply rollback_hashes_idemp |].
  intros p. unfold rollback. simpl. by rewrite rollback_hashes_idemp.
Qed.

(** *** The hash list is never empty *)

(** C8: the constructor refuses an empty seed; a successful [merge_headers]
    only appends, so that the list does not shrink; [rollback] leaves at
    least one element; and every state a run of the protocol reaches has
    [|HashList| >= 1]. *)
Theorem hash_list_never_empty stopped start_height minimum_rate first_height
    hashes checkpoints p0 events p calls :
  construct stopped start_height minimum_rate first_height hashes checkpoints
    = Some p0 →
  run p0 events = Some (p, calls) →
  construct stopped start_height minimum_rate first_height [] checkpoints
    = None ∧
  1 ≤ vec_size hashes ∧
  1 ≤ vec_size (hashes_ p) ∧
  (∀ message p',
     merge_headers p message = Some (p', true) →
     hashes_ p' = hashes_ p ++ (header.hash <$> message.elements message) ∧
     vec_size (hashes_ p) ≤ vec_size (hashes_ p')) ∧
  (∀ q, 1 ≤ vec_size (hashes_ (rollback q))).
Proof.
  intros (Hne & ->)%construct_Some Hrun.
  apply run_invariant in Hrun as (_ & Hp & _); [| done | done].
  assert (∀ l : list hash_digest, l ≠ [] → 1 ≤ vec_size l) as Hsize.
  { intros [| ] ?; [done | unfold vec_size; simpl; lia]. }
  split_and!; [done | by apply Hsize | by apply Hsize | |].
  - intros message p' [_ ->]%merge_headers_true. simpl. split; [done |].
    unfold vec_size. rewrite length_app. lia.
  - intros q. unfold vec_size. simpl.
    pose proof (rollback_hashes_length (checkpoints_ q) (hashes_ q)). lia.
Qed.

(** *** The rate is never a division by zero *)

(** C10: [current_rate] is called by [handle_event] alone, after the
    increment of [current_second_]: in every run of the protocol (of fewer
    than [2^64 - 1] events) no division by zero is reached, and at the call
    of [current_rate] the divisor [current_second_] is at least 1, so that
    the division is defined. *)
Theorem current_rate_defined stopped start_height minimum_rate first_height
    hashes checkpoints p0 events :
  construct stopped start_height minimum_rate first_height hashes checkpoints
    = Some p0 →
  vec_size events + 1 < size_max →
  ∃ p calls,
    run p0 events = Some (p, calls) ∧
    ∀ ec,
      let ticked := set_current_second p (size_t (current_second_ p + 1)) in
      1 ≤ current_second_ ticked ∧
      current_rate ticked =
        Some (size_t (vec_size (hashes_ ticked) - start_size_ ticked)
              / current_second_ ticked) ∧
      is_Some (handle_event ec p).
Proof.
  intros (Hne & ->)%construct_Some Hbound.
  destruct (run_total events
              (make hashes 0 minimum_rate (vec_size hashes) first_height
                 (target first_height hashes checkpoints) checkpoints stopped
                 start_height)) as [[p calls] Hrun]; [done | done | simpl; lia |].
  exists p, calls. split; [done |]. intros ec.
  apply run_invariant in Hrun as (_ & _ & Hsecond); [| done | done].
  simpl in *. rewrite size_t_small by lia. split_and!; [lia | |].
  - unfold current_rate. simpl. by rewrite bool_decide_eq_false_2 by lia.
  - apply handle_event_total; lia.
Qed.


(** *** The scenarios of the specification, as instances *)

Lemma short_batch_completion_witness :
  ∃ ec,
    handle_receive error.success
      (message.make_headers (linked_headers 100 3)) seeded
    = Some (set_stopped (set_hashes seeded [100; 101; 102; 103]) true,
            completion ec) ∧
    ec = error.success.
Proof.
  destruct (short_batch_completion false 5000 0 0 [100] [] seeded [] seeded []
              (message.make_headers (linked_headers 100 3))
              (set_hashes seeded [100; 101; 102; 103]))
    as (_ & ec & Hrun & Hsuccess & _);
    [reflexivity | reflexivity | reflexivity | reflexivity | reflexivity
    | lia | reflexivity | reflexivity |].
  exists ec. split; [exact Hrun |]. apply Hsuccess. reflexivity.
Defined.

Lemma failed_header_rolls_back_witness :
  handle_receive error.success
    (message.make_headers [header.make 100 101; header.make 999 102])
    (make [100] 0 0 1 0 1 [checkpoint.make 1 101] false 5000)
  = Some (make [100; 101] 0 0 1 0 1 [checkpoint.make 1 101] true 5000,
          completion error.previous_block_invalid).
Proof.
  destruct (failed_header_rolls_back
              (make [100] 0 0 1 0 1 [checkpoint.make 1 101] false 5000)
              (message.make_headers [header.make 100 101; header.make 999 102])
              1 (header.make 999 102))
    as (j & bad & Hj & Hbad & Hfails & _ & Hrun & _).
  - reflexivity.
  - discriminate.
  - intros [| i] [| k] a b Ha Hb Hle; simpl in *; try discriminate.
    injection Ha as <-. injection Hb as <-. simpl. lia.
  - reflexivity.
  - left. simpl. discriminate.
  - destruct j as [| [| j]]; [| exact Hrun | lia].
    exfalso. simpl in Hbad. injection Hbad as <-.
    destruct Hfails as [Hlink | Hvalid]; [by apply Hlink | discriminate Hvalid].
Defined.

Lemma full_batch_continuation_witness :
  ∃ q calls,
    handle_receive error.success
      (message.make_headers (linked_headers 100 2000)) seeded
    = Some (q, calls) ∧
    calls = request 2100.
Proof.
  destruct (full_batch_continuation seeded
              (message.make_headers (linked_headers 100 2000))
              (set_hashes seeded
                 (100 :: (header.hash <$> linked_headers 100 2000))))
    as (q & calls & Hrun & Hfull & _);
    [reflexivity | vm_compute; reflexivity |].
  exists q, calls. split; [exact Hrun |].
  destruct Hfull as [_ Hfull].
  destruct Hfull as (back & Hback & _ & ->); [vm_compute; discriminate |].
  vm_compute in Hback. by injection Hback as <-.
Defined.

Lemma rate_eviction_witness :
  ∃ q,
    handle_event error.channel_timeout (make [100] 0 10 1 0 0 [] false 5000)
    = Some (q, completion error.channel_timeout) ∧
    current_second_ q = 1.
Proof.
  destruct (rate_eviction false 5000 10 0 [100] []
              (make [100] 0 10 1 0 0 [] false 5000) [on_start]
              (make [100] 0 10 1 0 0 [] false 5000)
              (start_timer :: request 100) error.channel_timeout)
    as (_ & _ & _ & q & calls & Hrun & Hsecond & _ & _ & _ & Hfew);
    [reflexivity | reflexivity | reflexivity | by right | reflexivity
    | reflexivity |].
  exists q. split; [| exact Hsecond].
  rewrite Hrun, Hfew; [reflexivity | reflexivity].
Defined.

Lemma hash_list_never_empty_witness :
  1 ≤ vec_size (hashes_ (set_stopped (set_hashes seeded [100]) true)).
Proof.
  destruct (hash_list_never_empty false 5000 0 0 [100] [] seeded
              [on_receive error.success
                 (message.make_headers
                    [header.make 100 101; header.make 555 102])]
              (set_stopped (set_hashes seeded [100]) true)
              (completion error.previous_block_invalid))
    as (_ & _ & Hsize & _); [reflexivity | reflexivity |].
  exact Hsize.
Defined.

Lemma current_rate_defined_witness :
  ∃ p calls,
    run seeded [on_start; on_event error.channel_timeout] = Some (p, calls) ∧
    is_Some (handle_event error.channel_timeout p).
Proof.
  destruct (current_rate_defined false 5000 0 0 [100] [] seeded
              [on_start; on_event error.channel_timeout])
    as (p & calls & Hrun & Hdefined); [reflexivity | reflexivity |].
  exists p, calls. split; [exact Hrun |].
  apply (Hdefined error.channel_timeout).
Defined.

(** The sentence of C3 as it is written, that a further request is issued
    only for a message of exactly 2000 headers, fails: a message of 2001
    linked headers is merged, and answered by a further request. *)
Lemma longer_batch_continues :
  ∃ p',
    stopped_ seeded = false ∧
    merge_headers seeded (message.make_headers (linked_headers 100 2001))
      = Some (p', true) ∧
    handle_receive error.success
      (message.make_headers (linked_headers 100 2001)) seeded
      = Some (p', request 2101) ∧
    vec_size (linked_headers 100 2001) ≠ 2000.
Proof.
  eexists. split_and!.
  - reflexivity.
  - vm_compute. reflexivity.
  - vm_compute. reflexivity.
  - vm_compute. discriminate.
Qed.

End header_sync_properties.

(** * Properties of the block-sync session *)

Module block_sync_properties.

Import session_block_sync.

Section session.

Variable M : Z.

Lemma take_out_length k l rest :
  take_out k l = Some rest → length l = S (length rest).
Proof.
  revert rest. induction l as [| x l IH]; intros rest; simpl; [done |].
  case_decide; [by intros [= ->] |].
  destruct (take_out k l) as [rest' |]; simpl; [| done].
  intros [= <-]. simpl. f_equal. by apply IH.
Qed.

Lemma handle_answers e s :
  (length (omap answer_of (handle M e s).2) ≤ 1)%nat.
Proof.
  destruct e; simpl;
    unfold handle_started, start_syncing, handle_connect,
      handle_channel_start, handle_complete, new_connection;
    repeat case_match; simpl; lia.
Qed.

Lemma deliver_in_flight e c c' calls :
  deliver M e c = Some (c', calls) →
  (length (in_flight c) ≤ 1)%nat → (length (in_flight c') ≤ 1)%nat.
Proof.
  unfold deliver. intros Hstep Hone.
  pose proof (handle_answers e (the_session c)) as Hnew.
  destruct (answers e) as [k |] eqn:Hk; simpl in Hstep.
  - destruct (take_out k (in_flight c)) as [rest |] eqn:Hout; [| done].
    apply take_out_length in Hout.
    destruct (handle M e (the_session c)) as [s' calls'].
    simplify_eq/=. rewrite length_app. lia.
  - destruct e; simplify_eq/=. by rewrite app_nil_r.
Qed.

Lemma run_in_flight events c c' calls :
  run M c events = Some (c', calls) →
  (length (in_flight c) ≤ 1)%nat → (length (in_flight c') ≤ 1)%nat.
Proof.
  revert c calls. induction events as [| e rest IH]; intros c calls Hrun Hone.
  - by simplify_eq/=.
  - simpl in Hrun.
    destruct (deliver M e c) as [[c1 calls1] |] eqn:Hstep; [| done].
    simpl in Hrun.
    destruct (run M c1 rest) as [[c2 calls2] |] eqn:Hrest; [| done].
    simplify_eq/=. eapply IH; [done |]. by eapply deliver_in_flight.
Qed.


Lemma successes_cons e events :
  successes (e :: events) =
    (if decide (e = on_complete error.success) then 1 else 0)
    + successes events.
Proof.
  unfold successes, vec_size. rewrite filter_cons.
  case_decide; simpl; lia.
Qed.


Ltac elem_of_calls :=
  rewrite ?app_nil_r, ?elem_of_app, ?elem_of_cons, ?elem_of_nil.

Ltac settle := intuition (eauto; congruence || lia).

Ltac still_running :=
  split; [done |]; right; left;
  rewrite ?Z.add_0_r; simpl;
  split_and!; [lia | elem_of_calls; settle | done || lia | lia | lia
              | elem_of_calls; settle | elem_of_calls; settle ].

Lemma deliver_progress q e c c' calls calls' n :
  1 ≤ q < M →
  deliver M e c = Some (c', calls') →
  progress q c calls n →
  progress q c' (calls ++ calls')
    (n + if decide (e = on_complete error.success) then 1 else 0).
Proof.
  intros Hq Hstep (Hquorum & Hphase).
  destruct c as [[votes stopped quorum_ rate start_height] flight].
  unfold deliver in Hstep. simpl in *. subst quorum_.
  destruct Hphase as [(-> & -> & -> & ->)
                     | [(Hone & Hstarted & -> & Hn & Hnone & Hidle)
                       | (-> & -> & -> & Hdone)]].
  - (* waiting to be started *)
    destruct e as [ec | | | | ec |]; simplify_eq/=.
    + unfold handle_started, new_connection in Hstep. simpl in Hstep.
      destruct (error.is_error ec) eqn:Hec; [| destruct stopped];
        simplify_eq/=; [| still_running..].
      split; [done |]. right. left. simpl.
      split_and!; [lia | by intros ?%elem_of_nil | done | lia | lia | |].
      * intros [= <-]%list_elem_of_singleton. done.
      * intros _. right. exists ec. by apply list_elem_of_singleton.
    + split; [done |]. left. by split_and!.
  - (* running *)
    destruct flight as [| k [| ? ?]]; [| | simpl in Hone; lia].
    { destruct e; simplify_eq/=. still_running. }
    assert (k ≠ awaits_started) by (intros ->; apply Hstarted, list_elem_of_here).
    destruct e as [ec | ec sync | ec ch | ec ch | ec |]; simpl in Hstep;
      try (case_decide; simplify_eq/=);
      unfold start_syncing, handle_connect, handle_channel_start,
        handle_complete, new_connection in *; simpl in *.
    + (* the address arrives *)
      still_running.
    + (* the connection is made, or fails *)
      destruct (error.is_error ec), stopped; simplify_eq/=; still_running.
    + (* the channel starts, or fails to *)
      destruct (error.is_error ec), stopped; simplify_eq/=; still_running.
    + (* the protocol completes *)
      destruct (error.is_error ec) eqn:Hec; simpl in *.
      * assert (ec ≠ error.success) by (by intros ->).
        rewrite decide_False by congruence.
        destruct stopped; simplify_eq/=; still_running.
      * assert (ec = error.success) as ->.
        { unfold error.is_error in Hec. apply negb_false_iff in Hec.
          by apply bool_decide_eq_true in Hec. }
        rewrite decide_True by done.
        rewrite Z.mod_small in Hstep by lia.
        case_bool_decide as Hbelow.
        -- destruct stopped; simplify_eq/=; still_running.
        -- simplify_eq/=. split; [done |]. right. right.
           simpl. split_and!; [done | lia | lia |]. elem_of_calls. settle.
    + (* the session is stopped *)
      still_running.
  - (* done *)
    destruct e; simplify_eq/=. split; [done |]. right. right.
    rewrite Z.add_0_r, app_nil_r. by split_and!.
Qed.

Lemma run_progress q events c c' calls calls' n :
  1 ≤ q < M →
  run M c events = Some (c', calls') →
  progress q c calls n →
  progress q c' (calls ++ calls') (n + successes events).
Proof.
  intros Hq. revert c calls calls' n.
  induction events as [| e rest IH]; intros c calls calls' n Hrun Hc.
  - simplify_eq/=. unfold successes, vec_size. simpl.
    by rewrite Z.add_0_r, app_nil_r.
  - simpl in Hrun.
    destruct (deliver M e c) as [[c1 calls1] |] eqn:Hstep; [| done].
    simpl in Hrun.
    destruct (run M c1 rest) as [[c2 calls2] |] eqn:Hrest; [| done].
    simplify_eq/=. rewrite successes_cons, app_assoc, Z.add_assoc.
    eapply IH; [done |]. by eapply deliver_progress.
Qed.

Lemma started_progress stopped start quorum_ rate :
  progress quorum_ (started (construct stopped start quorum_ rate)) [] 0.
Proof. split; [done |]. left. by split_and!. Qed.


Lemma is_error_true ec : ec ≠ error.success → error.is_error ec = true.
Proof.
  intros Hec. unfold error.is_error. by rewrite bool_decide_eq_false_2.
Qed.

(** *** Quorum *)


(** *** One dial at a time *)

(** C6, as the code has it: the session does not dial concurrently.  At
    most one dial or channel is in flight at any time; there is none only
    when the session has been stopped or has called its handler; and for
    a session that has not been stopped every failed connection, failed
    channel start and failed protocol, and every completed protocol below
    the quorum, is followed by exactly one new dial. *)
Theorem one_dial_at_a_time stopped start quorum_ rate events c calls :
  1 ≤ quorum_ < M →
  run M (started (construct stopped start quorum_ rate)) events
    = Some (c, calls) →
  let s := the_session c in
  (length (in_flight c) ≤ 1)%nat ∧
  (in_flight c = [] → stopped_ s = true ∨ ∃ ec, handler ec ∈ calls) ∧
  (stopped_ s = false →
   (∀ ec ch, ec ≠ error.success →
      handle_connect ec ch s = (s, [fetch_address]) ∧
      handle_channel_start M ec ch s = (s, [fetch_address]) ∧
      handle_complete M ec s = (s, [fetch_address])) ∧
   (votes_ s + 1 < quorum s →
      handle_complete M error.success s
        = (set_votes s (votes_ s + 1), [fetch_address]))).
Proof.
  intros Hq Hrun.
  pose proof (run_progress _ _ _ _ [] _ 0 Hq Hrun
                (started_progress stopped start quorum_ rate))
    as (Hquorum & Hphase).
  simpl in Hphase. split_and!.
  - eapply run_in_flight; [done |]. simpl. lia.
  - destruct Hphase as [(Hflight & _)
                       | [(_ & _ & _ & _ & _ & Hidle) | (_ & _ & _ & Hdone)]].
    + by rewrite Hflight.
    + done.
    + intros _. right. by eexists.
  - intros Hstopped. split.
    + intros ec ch Hec%is_error_true.
      unfold handle_connect, handle_channel_start, handle_complete,
        new_connection.
      rewrite !Hec. simpl. by rewrite !Hstopped.
    + intros Hbelow. unfold handle_complete, new_connection. simpl.
      assert (0 ≤ votes_ (the_session c) < quorum_) as Hvotes.
      { destruct Hphase as [(_ & -> & _)
                           | [(_ & _ & -> & Hn & _) | (_ & Hn & _)]]; lia. }
      rewrite Z.mod_small by lia.
      rewrite bool_decide_eq_true_2 by done. simpl. by rewrite Hstopped.
Qed.

End session.


Lemma one_dial_at_a_time_witness :
  ∃ c calls,
    run (2 ^ 32) (started two_votes) (take 9 three_peers) = Some (c, calls) ∧
    (length (in_flight c) ≤ 1)%nat.
Proof.
  assert (∃ c calls,
            run (2 ^ 32) (started two_votes) (take 9 three_peers)
              = Some (c, calls))
    as (c & calls & Hrun) by (eexists _, _; vm_compute; reflexivity).
  exists c, calls. split; [exact Hrun |].
  apply (one_dial_at_a_time (2 ^ 32) false 0 2 10 (take 9 three_peers) c calls);
    [lia | exact Hrun].
Defined.

(** The sentence of C6 as it is written, that the session keeps several
    dials or channels in flight at the same time, fails: with a quorum of
    two, after the first peer has completed, the second has failed and the
    third is being dialled, one answer is awaited, and no run of any
    session ever awaits two. *)
Lemma never_two_in_flight :
  (∃ c calls,
     run (2 ^ 32) (started two_votes) (take 10 three_peers) = Some (c, calls) ∧
     in_flight c = [awaits_connect]) ∧
  ¬ ∃ M stopped start quorum_ rate events c calls,
      run M (started (construct stopped start quorum_ rate)) events
        = Some (c, calls) ∧
      (2 ≤ length (in_flight c))%nat.
Proof.
  split.
  - eexists _, _. split; [vm_compute; reflexivity | reflexivity].
  - intros (M & stopped & start & quorum_ & rate & events & c & calls
            & Hrun & Htwo).
    apply run_in_flight in Hrun; [lia | simpl; lia].
Qed.

End block_sync_properties.

(** * Properties of the console loop *)

Module console_properties.

Import Stdlib.Strings.Ascii Stdlib.Strings.String.
Import console.

Lemma command_turn_shutdown command :
  command_turn command = shutdown ↔
  command = ""%string ∨ trim_copy command = "stop"%string.
Proof.
  unfold command_turn, equals_literal. simpl.
  repeat case_bool_decide; simpl; intuition congruence.
Qed.

(** C9: the loop compares the raw line with the literal ["\0x03"] and the
    trimmed line with ["stop"].  The literal has the four characters NUL,
    'x', '0', '3', but the comparison takes it as a pointer to characters,
    which ends at the NUL: a line of those four characters does not leave
    the loop and is handed on as a payment address, and the empty line
    leaves the loop. *)
Theorem stop_literal_comparison :
  length stop_literal = 4%nat ∧
  command_turn stop_literal = query stop_literal ∧
  c_str stop_literal = ""%string ∧
  command_turn "" = shutdown ∧
  command_turn " stop " = shutdown ∧
  (∀ command,
     command_turn command = shutdown ↔
     command = ""%string ∨ trim_copy command = "stop"%string).
Proof. split_and!; try done. apply command_turn_shutdown. Qed.

End console_properties.

(** * Further properties of the header-sync protocol *)

Module header_sync_extras.

Import protocol_header_sync header_sync_properties.

(** *** The start gate *)

(** A protocol built for a running channel starts by comparing the height
    the peer advertised with the target: below it the handler is told
    [channel_stopped] and nothing is requested; otherwise the timer is
    started and the first [get_headers] asks for what follows the last
    hash of the seed. *)
Theorem start_gate start_height minimum_rate first_height hashes checkpoints
    p :
  construct false start_height minimum_rate first_height hashes checkpoints
    = Some p →
  0 ≤ first_height →
  first_height + vec_size hashes < size_max →
  let target_height :=
    match last checkpoints with
    | Some back => Z.max (checkpoint.height back)
                         (first_height + vec_size hashes - 1)
    | None => first_height + vec_size hashes - 1
    end in
  ∃ back,
    last hashes = Some back ∧
    start p =
      Some (p, if bool_decide (start_height < target_height)
               then [handler error.channel_stopped]
               else start_timer :: request back).
Proof.
  intros (Hne & ->)%construct_Some Hfirst Hfits.
  destruct (last hashes) as [back |] eqn:Hback;
    [| by apply last_None in Hback].
  exists back. split; [done |].
  assert (1 ≤ vec_size hashes) as Hseed.
  { unfold vec_size. destruct hashes; [done | simpl; lia]. }
  unfold start, send_get_headers, target. simpl. rewrite Hback. simpl.
  rewrite !size_t_small by (rewrite ?size_t_small; lia).
  by case_bool_decide.
Qed.

(** *** Success means the target was passed *)

Lemma next_height_frame p q :
  hashes_ q = hashes_ p → settings q = settings p →
  next_height q = next_height p ∧ target_height_ q = target_height_ p.
Proof.
  intros Hhashes Hsettings. injection Hsettings as _ _ Hfh Hth _ _.
  unfold next_height. by rewrite Hhashes, Hfh, Hth.
Qed.

Ltac in_calls H :=
  repeat first
    [ apply elem_of_nil in H; destruct H
    | apply elem_of_cons in H as [H | H];
      [ try discriminate H; try (injection H as H) | ] ].

Lemma deliver_success e p p' calls :
  deliver e p = Some (p', calls) →
  handler error.success ∈ calls →
  stopped_ p' = true ∧ target_height_ p' < next_height p'.
Proof.
  intros Hstep Hin. destruct e as [| ec | ec message | ec |]; simpl in Hstep.
  - unfold start, send_get_headers in Hstep.
    repeat case_match; simplify_option_eq; in_calls Hin.
  - unfold handle_send, complete, headers_complete in Hstep.
    repeat case_match; simplify_eq/=; in_calls Hin. by subst.
  - unfold handle_receive, send_get_headers, complete, headers_complete
      in Hstep.
    destruct (stopped_ p); [simplify_eq/=; in_calls Hin |].
    destruct (error.is_error ec) eqn:Hec;
      [simplify_eq/=; in_calls Hin; by subst |].
    destruct (merge_headers p message) as [[q merged] |]; [| done].
    simpl in Hstep. destruct merged; simpl in Hstep.
    + case_bool_decide.
      * destruct (stopped_ q); [simplify_eq/=; in_calls Hin |].
        destruct (last (hashes_ q)); simplify_eq/=. in_calls Hin.
      * simplify_eq/=. case_bool_decide; [done |]. in_calls Hin.
    + simplify_eq/=. in_calls Hin.
  - unfold handle_event, current_rate, complete, headers_complete in Hstep.
    case_bool_decide;
      [simplify_eq/=; in_calls Hin |].
    destruct (error.is_error ec && _) eqn:Hec;
      [simplify_eq/=; in_calls Hin; subst; done |].
    simpl in Hstep. case_bool_decide; [done |]. simpl in Hstep.
    case_bool_decide; simplify_eq/=; in_calls Hin.
  - simplify_eq/=. in_calls Hin.
Qed.


Ltac no_request :=
  split_and!;
  [ done | done | done
  | let Hin := fresh in intros Hin; in_calls Hin
  | let Hin := fresh in intros ? Hin; in_calls Hin ].

Lemma deliver_stopped e p p' calls :
  deliver e p = Some (p', calls) →
  stopped_ p = true →
  stopped_ p' = true ∧ hashes_ p' = hashes_ p ∧ settings p' = settings p ∧
  (subscribe_headers ∉ calls) ∧ ∀ packet, send packet ∉ calls.
Proof.
  intros Hstep Hstopped.
  destruct e as [| ec | ec message | ec |]; simpl in Hstep.
  - unfold start, send_get_headers in Hstep. rewrite Hstopped in Hstep.
    repeat case_match; simplify_option_eq;
      no_request.
  - unfold handle_send in Hstep. rewrite Hstopped in Hstep. simplify_eq.
    no_request.
  - unfold handle_receive in Hstep. rewrite Hstopped in Hstep. simplify_eq.
    no_request.
  - unfold handle_event, current_rate, complete, headers_complete in Hstep.
    repeat case_match; simplify_option_eq;
      no_request.
  - simplify_eq/=.
    no_request.
Qed.

Lemma run_success events p p' calls0 calls :
  (handler error.success ∈ calls0 →
   stopped_ p = true ∧ target_height_ p < next_height p) →
  run p events = Some (p', calls) →
  handler error.success ∈ calls0 ++ calls →
  stopped_ p' = true ∧ target_height_ p' < next_height p'.
Proof.
  revert p calls0 calls.
  induction events as [| e rest IH]; intros p calls0 calls Hbefore Hrun Hin.
  - simplify_eq/=. rewrite app_nil_r in Hin. by apply Hbefore.
  - simpl in Hrun.
    destruct (deliver e p) as [[q calls1] |] eqn:Hstep; [| done].
    simpl in Hrun.
    destruct (run q rest) as [[q' calls2] |] eqn:Hrest; [| done].
    simplify_eq/=. rewrite app_assoc in Hin.
    apply (IH q (calls0 ++ calls1) calls2); [| done | done].
    intros [Hold | Hnew]%elem_of_app.
    + destruct (Hbefore Hold) as [Hstopped Hpassed].
      destruct (deliver_stopped _ _ _ _ Hstep Hstopped)
        as (Hq & Hhashes & Hsettings & _).
      destruct (next_height_frame _ _ Hhashes Hsettings) as [-> ->]. done.
    + by eapply deliver_success.
Qed.

(** In every run of the protocol, from any state, [success] is told to the
    session only when the list has passed the target: at the end of a run
    that reported [success] the channel is stopped and
    [next_height > target_height]. *)
Theorem success_means_target_passed p events p' calls :
  run p events = Some (p', calls) →
  handler error.success ∈ calls →
  stopped_ p' = true ∧ target_height_ p' < next_height p'.
Proof.
  intros Hrun Hin. apply (run_success events p p' [] calls); [| done | done].
  by intros ?%elem_of_nil.
Qed.

(** *** A stopped protocol *)

(** Once the channel is stopped, whatever is delivered afterwards leaves the
    hash list as it is, issues no request and renews no subscription: the
    list the next peer starts from is the one the completion left. *)
Theorem stopped_protocol_is_frozen p events p' calls :
  stopped_ p = true →
  run p events = Some (p', calls) →
  stopped_ p' = true ∧ hashes_ p' = hashes_ p ∧
  (subscribe_headers ∉ calls) ∧ ∀ packet, send packet ∉ calls.
Proof.
  revert p calls. induction events as [| e rest IH]; intros p calls Hstopped Hrun.
  - simplify_eq/=. split_and!; [done | done | |]; [| intros packet];
      by intros ?%elem_of_nil.
  - simpl in Hrun.
    destruct (deliver e p) as [[q calls1] |] eqn:Hstep; [| done].
    simpl in Hrun.
    destruct (run q rest) as [[q' calls2] |] eqn:Hrest; [| done].
    simplify_eq/=.
    destruct (deliver_stopped _ _ _ _ Hstep Hstopped)
      as (Hq & Hhashes & _ & Hsub & Hsend).
    destruct (IH q calls2 Hq Hrest) as (Hq' & Hhashes' & Hsub' & Hsend').
    split_and!; [done | congruence | |].
    + intros [? | ?]%elem_of_app; [by apply Hsub | by apply Hsub'].
    + intros packet [? | ?]%elem_of_app;
        [by apply (Hsend packet) | by apply (Hsend' packet)].
Qed.

(** *** What changes the hash list *)

(** Only a headers message received without an error changes the hash list:
    a start, a send result, a timer event, a stop and a failed receive all
    leave it as it is. *)
Theorem only_headers_change_the_list e p p' calls :
  is_headers e = false →
  deliver e p = Some (p', calls) →
  hashes_ p' = hashes_ p.
Proof.
  intros Hother Hstep.
  destruct e as [| ec | ec message | ec |]; simpl in *.
  - unfold start, send_get_headers in Hstep.
    repeat case_match; by simplify_option_eq.
  - unfold handle_send, complete, headers_complete in Hstep.
    repeat case_match; by simplify_eq/=.
  - apply negb_false_iff in Hother. unfold handle_receive in Hstep.
    rewrite Hother in Hstep. unfold complete, headers_complete in Hstep.
    repeat case_match; by simplify_eq/=.
  - apply handle_event_frame in Hstep as (second & stopped & ->). done.
  - by simplify_eq/=.
Qed.

(** *** The clock *)

Lemma ticks_cons e events :
  ticks (e :: events) = (if is_tick e then 1 else 0) + ticks events.
Proof.
  unfold ticks, vec_size. rewrite filter_cons.
  destruct (is_tick e); simpl; [| done]. lia.
Qed.

Lemma ticks_nonneg events : 0 ≤ ticks events.
Proof. unfold ticks, vec_size. lia. Qed.

Lemma deliver_clock e p p' calls :
  deliver e p = Some (p', calls) →
  0 ≤ current_second_ p →
  (is_tick e = true → current_second_ p + 1 < size_max) →
  current_second_ p' = current_second_ p + (if is_tick e then 1 else 0).
Proof.
  intros Hstep Hsecond Hbound.
  destruct e as [| ec | ec message | ec |]; simpl in *.
  - unfold start, send_get_headers in Hstep.
    repeat case_match; simplify_option_eq; lia.
  - unfold handle_send, complete, headers_complete in Hstep.
    repeat case_match; simplify_eq/=; lia.
  - apply handle_receive_frame in Hstep as (hashes & stopped & ->). simpl. lia.
  - unfold handle_event, current_rate, complete, headers_complete in Hstep.
    destruct (bool_decide (ec = error.channel_stopped)) eqn:Hstop.
    { apply bool_decide_eq_true in Hstop as ->. simplify_eq/=. lia. }
    destruct (bool_decide (ec = error.success)) eqn:Hok.
    { apply bool_decide_eq_true in Hok as ->. simpl in *.
      rewrite size_t_small in Hstep by lia.
      repeat case_match; simplify_option_eq; simpl; lia. }
    destruct (bool_decide (ec = error.channel_timeout)) eqn:Hout.
    { apply bool_decide_eq_true in Hout as ->. simpl in *.
      rewrite size_t_small in Hstep by lia.
      repeat case_match; simplify_option_eq; simpl; lia. }
    unfold error.is_error in Hstep. rewrite Hok in Hstep. simpl in *.
    simplify_eq/=. lia.
  - simplify_eq/=. lia.
Qed.

(** The clock counts the ticks: after a run from the constructor,
    [current_second_] is the number of timer events delivered without an
    error or with [channel_timeout], whether or not the channel had been
    stopped by then. *)
Theorem clock_counts_ticks stopped start_height minimum_rate first_height
    hashes checkpoints p0 events p calls :
  construct stopped start_height minimum_rate first_height hashes checkpoints
    = Some p0 →
  run p0 events = Some (p, calls) →
  ticks events < size_max →
  current_second_ p = ticks events.
Proof.
  intros (_ & ->)%construct_Some Hrun Hbound.
  assert (∀ events p p' calls,
            run p events = Some (p', calls) → 0 ≤ current_second_ p →
            current_second_ p + ticks events < size_max →
            current_second_ p' = current_second_ p + ticks events) as Hcount.
  { clear. induction events as [| e rest IH]; intros p p' calls Hrun Hsecond Hb.
    - simplify_eq/=. unfold ticks, vec_size. simpl. lia.
    - simpl in Hrun. rewrite ticks_cons in *.
      pose proof (ticks_nonneg rest).
      destruct (deliver e p) as [[q calls1] |] eqn:Hstep; [| done].
      simpl in Hrun.
      destruct (run q rest) as [[q' calls2] |] eqn:Hrest; [| done].
      simplify_eq/=.
      apply deliver_clock in Hstep; [| done | destruct (is_tick e); lia].
      rewrite (IH q p' calls2 Hrest); destruct (is_tick e); lia. }
  rewrite (Hcount _ _ _ _ Hrun); simpl; lia.
Qed.

(** *** Timer errors and a zero rate *)

(** A timer event with any code other than [success] and [channel_timeout]
    completes the attempt with that code: it is not counted as a second and
    no rate is computed. *)
Theorem timer_error_completes ec p :
  ec ≠ error.success → ec ≠ error.channel_timeout →
  handle_event ec p = Some (set_stopped p true, completion ec).
Proof.
  intros Hok Hout. unfold handle_event, complete, headers_complete.
  case_bool_decide; [done |].
  unfold error.is_error. by rewrite !bool_decide_eq_false_2 by done.
Qed.

(** With a minimum rate of zero no tick ever evicts the peer: the timer is
    reset whatever was received. *)
Theorem zero_rate_never_evicts ec p :
  ec = error.success ∨ ec = error.channel_timeout →
  minimum_rate_ p ≤ 0 →
  0 ≤ current_second_ p →
  current_second_ p + 1 < size_max →
  handle_event ec p =
    Some (set_current_second p (current_second_ p + 1), [reset_timer]).
Proof.
  intros Htick Hrate Hsecond Hbound. unfold handle_event, current_rate.
  assert (0 ≤ size_t (vec_size (hashes_ p) - start_size_ p)
              / (current_second_ p + 1)) as Hnonneg.
  { apply Z.div_pos; [| lia]. unfold size_t.
    apply Z.mod_pos_bound. by compute. }
  destruct Htick as [-> | ->]; simpl;
    rewrite !size_t_small by lia;
    rewrite bool_decide_eq_false_2 by lia; simpl;
    by rewrite bool_decide_eq_false_2 by lia.
Qed.


(** *** What [merge_headers] accepts *)

Lemma set_hashes_same p : set_hashes p (hashes_ p) = p.
Proof. by destruct p. Qed.

Lemma merge_loop_rejects elements p previous q :
  last (hashes_ p) = Some previous →
  merge_loop p previous elements = (q, false) →
  ∃ k block, elements !! k = Some block ∧ fails_at p elements k block.
Proof.
  revert p previous.
  induction elements as [| first rest IH]; intros p previous Hlast Hloop;
    [done |].
  simpl in Hloop. destruct (_ || _) eqn:Hcheck.
  - exists 0%nat, first. split; [done |].
    unfold fails_at, hashes_before. simpl.
    rewrite app_nil_r, set_hashes_same, Hlast.
    apply orb_true_iff in Hcheck as [Hlink | Hvalid].
    + left. apply negb_true_iff, bool_decide_eq_false in Hlink. congruence.
    + right. by apply negb_true_iff in Hvalid.
  - destruct (IH (set_hashes p (hashes_ p ++ [header.hash first]))
                (header.hash first)) as (k & block & Hk & Hfail);
      [apply last_snoc | done |].
    exists (S k), block. split; [done |].
    unfold fails_at, hashes_before in *. simpl in *.
    by rewrite <- app_assoc in Hfail.
Qed.

(** A message is merged if and only if none of its headers fails the
    linkage check or checkpoint validation at its position; no other
    property of a header is examined. *)
Theorem merge_headers_accepts p message :
  hashes_ p ≠ [] →
  ∃ p' merged,
    merge_headers p message = Some (p', merged) ∧
    (merged = true ↔
     ∀ k block, message.elements message !! k = Some block →
                ¬ fails_at p (message.elements message) k block).
Proof.
  intros Hne. unfold merge_headers.
  destruct (last (hashes_ p)) as [previous |] eqn:Hlast;
    [| by apply last_None in Hlast].
  simpl.
  destruct (merge_loop p previous (message.elements message))
    as [q merged] eqn:Hloop.
  exists q, merged. split; [done |]. destruct merged.
  - split; [| done]. intros _ k block Hk Hfail.
    destruct (merge_loop_false _ _ _ _ _ Hlast Hk Hfail) as (j & _ & Hno).
    congruence.
  - split; [done |]. intros Hall.
    destruct (merge_loop_rejects _ _ _ _ Hlast Hloop) as (k & block & Hk & Hfail).
    by destruct (Hall k block Hk).
Qed.

Lemma merged_not_failing p message p' k block :
  merge_headers p message = Some (p', true) →
  message.elements message !! k = Some block →
  ¬ fails_at p (message.elements message) k block.
Proof.
  intros Hmerge Hk.
  destruct (merge_headers_true _ _ _ Hmerge) as [Hne _].
  destruct (merge_headers_accepts p message Hne) as (q & merged & Hq & Hiff).
  rewrite Hmerge in Hq. simplify_eq. by apply Hiff.
Qed.

Lemma hashes_before_length p elements k block :
  elements !! k = Some block →
  length (hashes_before p elements k) = (length (hashes_ p) + k)%nat.
Proof.
  intros Hk%lookup_lt_Some. unfold hashes_before.
  rewrite length_app, length_fmap, length_take. lia.
Qed.

(** After a merge the list is a chain: the header at position [k] of the
    message has its hash at offset [|HashList| + k] of the new list, and
    the element just before it is the parent the header names. *)
Theorem merged_headers_are_linked p message p' k block :
  merge_headers p message = Some (p', true) →
  message.elements message !! k = Some block →
  hashes_ p' !! (length (hashes_ p) + k)%nat = Some (header.hash block) ∧
  hashes_ p' !! (length (hashes_ p) + k - 1)%nat
    = Some (header.previous_block_hash block).
Proof.
  intros Hmerge Hk.
  pose proof (merged_not_failing _ _ _ _ _ Hmerge Hk) as Hpass.
  destruct (merge_headers_true _ _ _ Hmerge) as [Hne ->]. simpl.
  assert (0 < length (hashes_ p))%nat
    by (destruct (hashes_ p); [done | simpl; lia]).
  split.
  - rewrite lookup_app_r by lia.
    replace (length (hashes_ p) + k - length (hashes_ p))%nat with k by lia.
    by rewrite list_lookup_fmap, Hk.
  - destruct (decide (last (hashes_before p (message.elements message) k)
                      = Some (header.previous_block_hash block)))
      as [Hlast | Hbad]; [| destruct Hpass; by left].
    rewrite last_lookup, (hashes_before_length _ _ _ _ Hk) in Hlast.
    unfold hashes_before in Hlast.
    replace (Init.Nat.pred (length (hashes_ p) + k))
      with (length (hashes_ p) + k - 1)%nat in Hlast by lia.
    rewrite <- Hlast.
    rewrite <- (take_drop k (message.elements message)) at 1.
    rewrite fmap_app, app_assoc.
    rewrite lookup_app_l; [done |].
    rewrite length_app, length_fmap, length_take.
    apply lookup_lt_Some in Hk. lia.
Qed.

(** After a merge every checkpoint is met: a header merged at the height of
    a checkpoint has the hash of that checkpoint. *)
Theorem merged_headers_respect_checkpoints p message p' k block c :
  merge_headers p message = Some (p', true) →
  message.elements message !! k = Some block →
  c ∈ checkpoints_ p →
  0 ≤ first_height_ p →
  first_height_ p + vec_size (hashes_ p) + Z.of_nat k < size_max →
  checkpoint.height c = first_height_ p + vec_size (hashes_ p) + Z.of_nat k →
  header.hash block = checkpoint.hash c ∧
  hashes_ p' !! (length (hashes_ p) + k)%nat = Some (checkpoint.hash c).
Proof.
  intros Hmerge Hk Hc Hfirst Hfits Hheight.
  pose proof (merged_not_failing _ _ _ _ _ Hmerge Hk) as Hpass.
  destruct (merged_headers_are_linked _ _ _ _ _ Hmerge Hk) as [Hat _].
  assert (header.hash block = checkpoint.hash c) as Hhash; [| by rewrite <- Hhash].
  destruct (checkpoint.validate (header.hash block)
              (next_height
                 (set_hashes p (hashes_before p (message.elements message) k)))
              (checkpoints_ p)) eqn:Hvalid;
    [| destruct Hpass; by right].
  unfold checkpoint.validate in Hvalid.
  apply bool_decide_eq_true in Hvalid. rewrite Forall_forall in Hvalid.
  symmetry. apply (Hvalid c Hc).
  unfold next_height, vec_size. simpl.
  rewrite (hashes_before_length _ _ _ _ Hk).
  rewrite size_t_small; unfold vec_size in *; lia.
Qed.

(** *** What [rollback] keeps *)

(** Whatever the checkpoints, sorted or not, [rollback] of a non-empty list
    keeps a non-empty prefix of it: the seed stays first, nothing is
    reordered and nothing is added. *)
Theorem rollback_keeps_prefix checkpoints hashes :
  hashes ≠ [] →
  ∃ n, (1 ≤ n ≤ length hashes)%nat ∧
       rollback_hashes checkpoints hashes = take n hashes ∧
       head (rollback_hashes checkpoints hashes) = head hashes.
Proof.
  intros Hne. rewrite rollback_hashes_scan.
  destruct (rollback_scan _ _) as [kept |] eqn:Hscan; simpl.
  - apply rollback_scan_take in Hscan as (i & Hi & ->).
    exists (S i). split_and!; [lia | lia | done | by destruct hashes].
  - destruct hashes as [| seed rest]; [done |].
    exists 1%nat. rewrite resize_1_cons. simpl.
    split_and!; [lia | lia | by rewrite take_0 | done].
Qed.

(** Without checkpoints a single bad header costs everything but the seed:
    whatever had been gathered, from this peer or from earlier ones, the
    list is cut down to its first element. *)
Theorem no_checkpoint_rollback_to_seed p seed rest message k block :
  stopped_ p = false →
  checkpoints_ p = [] →
  hashes_ p = seed :: rest →
  message.elements message !! k = Some block →
  fails_at p (message.elements message) k block →
  handle_receive error.success message p =
    Some (set_stopped (set_hashes p [seed]) true,
          completion error.previous_block_invalid).
Proof.
  intros Hstopped Hnone Hhashes Hk Hfail.
  destruct (last (hashes_ p)) as [previous |] eqn:Hlast;
    [| apply last_None in Hlast; congruence].
  destruct (merge_loop_false _ _ _ _ _ Hlast Hk Hfail) as (j & Hj & Hloop).
  unfold handle_receive, merge_headers. rewrite Hstopped, Hlast. simpl.
  rewrite Hloop. simpl. unfold complete, headers_complete. simpl.
  unfold hashes_before. rewrite Hnone, Hhashes. simpl.
  unfold rollback_hashes. simpl. by rewrite resize_0.
Qed.

(** *** Requests *)

(** Every [get_headers] the protocol sends, at the start or after a full
    batch, has a single locator hash, the last hash of the list as the
    step leaves it, and the null hash as its stop. *)
Theorem requests_follow_the_tip e p p' calls packet :
  deliver e p = Some (p', calls) →
  send packet ∈ calls →
  ∃ back, last (hashes_ p') = Some back ∧
          packet = message.make_get_headers [back] null_hash.
Proof.
  intros Hstep Hin. destruct e as [| ec | ec message | ec |]; simpl in Hstep.
  - unfold start, send_get_headers in Hstep.
    destruct (bool_decide _); [simplify_eq/=; in_calls Hin |].
    destruct (stopped_ p); [simplify_eq/=; in_calls Hin |].
    destruct (last (hashes_ p)) as [back |] eqn:Hback; simplify_eq/=.
    in_calls Hin. subst. by exists back.
  - unfold handle_send, complete, headers_complete in Hstep.
    repeat case_match; simplify_eq/=; in_calls Hin.
  - unfold handle_receive, send_get_headers, complete, headers_complete
      in Hstep.
    destruct (stopped_ p); [simplify_eq/=; in_calls Hin |].
    destruct (error.is_error ec); [simplify_eq/=; in_calls Hin |].
    destruct (merge_headers p message) as [[q merged] |]; [| done].
    simpl in Hstep. destruct merged; simpl in Hstep;
      [| simplify_eq/=; in_calls Hin].
    case_bool_decide; [| simplify_eq/=; in_calls Hin].
    destruct (stopped_ q); [simplify_eq/=; in_calls Hin |].
    destruct (last (hashes_ q)) as [back |] eqn:Hback; simplify_eq/=.
    in_calls Hin. subst. by exists back.
  - unfold handle_event, current_rate, complete, headers_complete in Hstep.
    repeat case_match; simplify_option_eq; in_calls Hin.
  - simplify_eq/=. in_calls Hin.
Qed.

(** *** Instances *)

Ltac decided := apply (bool_decide_unpack _); vm_compute; exact I.

Lemma requests_follow_the_tip_witness :
  ∃ back,
    last [100; 101; 102] = Some back ∧
    message.make_get_headers [102] null_hash
    = message.make_get_headers [back] null_hash.
Proof.
  apply (requests_follow_the_tip on_start (set_hashes seeded [100; 101; 102])
           (set_hashes seeded [100; 101; 102])
           (start_timer :: request 102));
    [reflexivity | decided].
Defined.

Lemma start_gate_witness :
  start seeded = Some (seeded, start_timer :: request 100).
Proof.
  destruct (start_gate 5000 0 0 [100] [] seeded)
    as (back & Hback & Hstart); [reflexivity | lia | reflexivity |].
  injection Hback as <-. exact Hstart.
Defined.

Lemma success_means_target_passed_witness :
  ∃ p' calls,
    run seeded
      [on_start;
       on_receive error.success (message.make_headers (linked_headers 100 3))]
    = Some (p', calls) ∧
    target_height_ p' < next_height p'.
Proof.
  destruct (run seeded _) as [[p' calls] |] eqn:Hrun;
    [| vm_compute in Hrun; discriminate Hrun].
  exists p', calls. split; [reflexivity |].
  apply (success_means_target_passed seeded _ p' calls Hrun).
  vm_compute in Hrun. injection Hrun as _ <-. decided.
Defined.

Lemma stopped_protocol_is_frozen_witness :
  ∃ p' calls,
    run (set_stopped seeded true)
      [on_receive error.success (message.make_headers (linked_headers 100 3));
       on_event error.channel_timeout]
    = Some (p', calls) ∧
    hashes_ p' = [100].
Proof.
  destruct (run (set_stopped seeded true) _) as [[p' calls] |] eqn:Hrun;
    [| vm_compute in Hrun; discriminate Hrun].
  exists p', calls. split; [reflexivity |].
  destruct (stopped_protocol_is_frozen (set_stopped seeded true) _ p' calls
              eq_refl Hrun) as (_ & Hhashes & _).
  exact Hhashes.
Defined.

Lemma only_headers_change_the_list_witness :
  ∃ p' calls,
    handle_event error.channel_timeout slow = Some (p', calls) ∧
    hashes_ p' = hashes_ slow.
Proof.
  destruct (handle_event error.channel_timeout slow) as [[p' calls] |]
    eqn:Hstep; [| vm_compute in Hstep; discriminate Hstep].
  exists p', calls. split; [reflexivity |].
  apply (only_headers_change_the_list (on_event error.channel_timeout)
           slow p' calls eq_refl Hstep).
Defined.

Lemma clock_counts_ticks_witness :
  ∃ p calls,
    run seeded
      [on_event error.channel_timeout; on_start;
       on_event (error.other 7); on_event error.success]
    = Some (p, calls) ∧
    current_second_ p = 2.
Proof.
  destruct (run seeded _) as [[p calls] |] eqn:Hrun;
    [| vm_compute in Hrun; discriminate Hrun].
  exists p, calls. split; [reflexivity |].
  apply (clock_counts_ticks false 5000 0 0 [100] [] seeded _ p calls
           eq_refl Hrun).
  reflexivity.
Defined.

Lemma zero_rate_never_evicts_witness :
  handle_event error.channel_timeout seeded
  = Some (set_current_second seeded 1, [reset_timer]).
Proof.
  apply (zero_rate_never_evicts error.channel_timeout seeded);
    [by right | simpl; lia | simpl; lia | reflexivity].
Defined.

Lemma merge_headers_accepts_witness :
  ∃ p' merged,
    merge_headers seeded (message.make_headers (linked_headers 100 3))
    = Some (p', merged) ∧
    (merged = true ↔
     ∀ k block, linked_headers 100 3 !! k = Some block →
                ¬ fails_at seeded (linked_headers 100 3) k block).
Proof.
  apply (merge_headers_accepts seeded
           (message.make_headers (linked_headers 100 3))).
  discriminate.
Defined.

Lemma merged_headers_are_linked_witness :
  [100; 101; 102; 103] !! 2%nat = Some 102 ∧
  [100; 101; 102; 103] !! 1%nat = Some 101.
Proof.
  apply (merged_headers_are_linked seeded
           (message.make_headers (linked_headers 100 3))
           (set_hashes seeded [100; 101; 102; 103]) 1 (header.make 101 102));
    reflexivity.
Defined.

Lemma merged_headers_respect_checkpoints_witness :
  header.hash (header.make 101 102)
  = checkpoint.hash (checkpoint.make 2 102).
Proof.
  apply (merged_headers_respect_checkpoints
           (make [100] 0 0 1 0 2 [checkpoint.make 2 102] false 5000)
           (message.make_headers (linked_headers 100 3))
           (make [100; 101; 102; 103] 0 0 1 0 2 [checkpoint.make 2 102]
              false 5000)
           1 (header.make 101 102) (checkpoint.make 2 102));
    [reflexivity | reflexivity | apply list_elem_of_here | simpl; lia
    | reflexivity | reflexivity].
Defined.

Lemma rollback_keeps_prefix_witness :
  ∃ n, (1 ≤ n ≤ 4)%nat ∧
       rollback_hashes [checkpoint.make 2 102] [100; 101; 102; 103]
       = take n [100; 101; 102; 103] ∧
       head (rollback_hashes [checkpoint.make 2 102] [100; 101; 102; 103])
       = Some 100.
Proof.
  apply (rollback_keeps_prefix [checkpoint.make 2 102] [100; 101; 102; 103]).
  discriminate.
Defined.

Lemma no_checkpoint_rollback_to_seed_witness :
  handle_receive error.success
    (message.make_headers [header.make 101 102; header.make 555 103])
    (set_hashes seeded [100; 101])
  = Some (set_stopped (set_hashes seeded [100]) true,
          completion error.previous_block_invalid).
Proof.
  apply (no_checkpoint_rollback_to_seed (set_hashes seeded [100; 101]) 100
           [101]
           (message.make_headers [header.make 101 102; header.make 555 103])
           1 (header.make 555 103));
    [reflexivity | reflexivity | reflexivity | reflexivity |].
  left. simpl. discriminate.
Defined.

End header_sync_extras.

(** * Further properties of the block-sync session *)

Module block_sync_extras.

Import session_block_sync block_sync_properties.

Section session.

Variable M : Z.

Ltac in_calls H :=
  repeat first
    [ apply elem_of_nil in H; destruct H
    | apply elem_of_cons in H as [H | H];
      [ try discriminate H; try (injection H as H) | ] ].

Ltac unfold_handlers :=
  unfold handle, handle_started, start_syncing, handle_connect,
    handle_channel_start, handle_complete, new_connection in *.

(** *** One report at most *)

Lemma reports_app calls calls' :
  reports (calls ++ calls') = (reports calls + reports calls')%nat.
Proof. unfold reports. by rewrite filter_app, length_app. Qed.

Lemma handle_balance e s :
  (reports (handle M e s).2 + length (omap answer_of (handle M e s).2) ≤ 1)%nat.
Proof.
  destruct e; unfold_handlers; repeat case_match; simpl;
    unfold reports; simpl; lia.
Qed.

Lemma deliver_balance e c c' calls :
  deliver M e c = Some (c', calls) →
  (reports calls + length (in_flight c') ≤ length (in_flight c))%nat.
Proof.
  unfold deliver. intros Hstep.
  pose proof (handle_balance e (the_session c)) as Hnew.
  destruct (answers e) as [k |] eqn:Hk; simpl in Hstep.
  - destruct (take_out k (in_flight c)) as [rest |] eqn:Hout; [| done].
    apply take_out_length in Hout.
    destruct (handle M e (the_session c)) as [s' calls'].
    simplify_eq/=. rewrite length_app. lia.
  - destruct e; simplify_eq/=. rewrite app_nil_r. unfold reports. simpl. lia.
Qed.

(** Whatever the quorum and whatever the session is stopped or not, the
    handler given to [start] is called at most once, and once it has been
    called nothing is in flight any more: calls of the handler and awaited
    answers together never number more than one. *)
Theorem at_most_one_report s events c calls :
  run M (started s) events = Some (c, calls) →
  (reports calls + length (in_flight c) ≤ 1)%nat.
Proof.
  assert (∀ events c c' calls,
            run M c events = Some (c', calls) →
            (reports calls + length (in_flight c') ≤ length (in_flight c))%nat)
    as Hrun.
  { clear. induction events as [| e rest IH]; intros c c' calls Hrun.
    - simplify_eq/=. unfold reports. simpl. lia.
    - simpl in Hrun.
      destruct (deliver M e c) as [[c1 calls1] |] eqn:Hstep; [| done].
      simpl in Hrun.
      destruct (run M c1 rest) as [[c2 calls2] |] eqn:Hrest; [| done].
      simplify_eq/=. apply deliver_balance in Hstep. apply IH in Hrest.
      rewrite reports_app. lia. }
  intros Hstarted%Hrun. simpl in Hstarted. lia.
Qed.

(** *** No success without a successful peer *)

Lemma handle_success e s :
  handler error.success ∈ (handle M e s).2 → e = on_complete error.success.
Proof.
  intros Hin. destruct e as [ec | ec sync | ec ch | ec ch | ec |];
    unfold_handlers; simpl in Hin.
  - destruct (error.is_error ec) eqn:Hec; [| destruct (stopped_ _)];
      simpl in Hin; in_calls Hin. by subst.
  - in_calls Hin.
  - repeat case_match; simpl in Hin; in_calls Hin.
  - destruct (error.is_error ec) eqn:Hec; simpl in Hin;
      [destruct (stopped_ _) |]; simpl in Hin; in_calls Hin.
  - destruct (error.is_error ec) eqn:Hec; simpl in Hin.
    + destruct (stopped_ _); simpl in Hin; in_calls Hin.
    + apply negb_false_iff, bool_decide_eq_true in Hec. by subst.
  - in_calls Hin.
Qed.

(** From any configuration and for any quorum, zero included, [success] is
    reported only in answer to a peer whose block-sync protocol completed
    with [success]: neither a start, nor a connection, nor a stop, nor a
    failure ever makes the session report [success]. *)
Theorem success_needs_a_successful_peer c events c' calls :
  run M c events = Some (c', calls) →
  handler error.success ∈ calls →
  on_complete error.success ∈ events.
Proof.
  revert c calls. induction events as [| e rest IH]; intros c calls Hrun Hin.
  - simplify_eq/=. by apply elem_of_nil in Hin.
  - simpl in Hrun.
    destruct (deliver M e c) as [[c1 calls1] |] eqn:Hstep; [| done].
    simpl in Hrun.
    destruct (run M c1 rest) as [[c2 calls2] |] eqn:Hrest; [| done].
    simplify_eq/=. apply elem_of_cons.
    apply elem_of_app in Hin as [Hnow | Hlater].
    + left. unfold deliver in Hstep.
      destruct (match answers e with
                | Some k => take_out k (in_flight c)
                | None => Some (in_flight c)
                end); [| done].
      simpl in Hstep. pose proof (handle_success e (the_session c)) as He.
      destruct (handle M e (the_session c)). simplify_eq/=.
      symmetry. by apply He.
    + right. by eapply IH.
Qed.

(** *** A stopped session *)

Lemma handle_stopped e s :
  stopped_ s = true →
  stopped_ (handle M e s).1 = true ∧ fetch_address ∉ (handle M e s).2.
Proof.
  intros Hstopped. destruct s as [votes stopped q rate height].
  simpl in Hstopped. subst stopped.
  destruct e as [ec | ec sync | ec ch | ec ch | ec |]; unfold_handlers; simpl;
    repeat case_match; simpl in *; try discriminate;
    (split; [done |]); intros Hin; in_calls Hin.
Qed.

(** A session that has been stopped dials no further peer: whatever
    answers still arrive, [fetch_address] is not called again, and the
    session stays stopped. *)
Theorem stopped_session_never_dials c events c' calls :
  stopped_ (the_session c) = true →
  run M c events = Some (c', calls) →
  stopped_ (the_session c') = true ∧ fetch_address ∉ calls.
Proof.
  revert c calls. induction events as [| e rest IH]; intros c calls Hstopped Hrun.
  - simplify_eq/=. split; [done |]. by intros ?%elem_of_nil.
  - simpl in Hrun.
    destruct (deliver M e c) as [[c1 calls1] |] eqn:Hstep; [| done].
    simpl in Hrun.
    destruct (run M c1 rest) as [[c2 calls2] |] eqn:Hrest; [| done].
    simplify_eq/=. unfold deliver in Hstep.
    destruct (match answers e with
              | Some k => take_out k (in_flight c)
              | None => Some (in_flight c)
              end); [| done].
    simpl in Hstep.
    destruct (handle_stopped e (the_session c) Hstopped) as [Hs Hcalls].
    destruct (handle M e (the_session c)) as [s1 calls1']. simplify_eq/=.
    destruct (IH _ _ (Hs : stopped_ (the_session (configure _ _)) = true)
                Hrest) as [Hs' Hcalls'].
    split; [done |]. by intros [? | ?]%elem_of_app.
Qed.

(** *** A session with nothing in flight *)

(** Once no answer is awaited (the handler has been called, or a stopped
    session has let its last channel go) nothing can be delivered to the
    session but a stop, and it makes no further call. *)
Theorem idle_session_is_inert c events c' calls :
  in_flight c = [] →
  run M c events = Some (c', calls) →
  calls = [] ∧ in_flight c' = [] ∧
  votes_ (the_session c') = votes_ (the_session c) ∧
  Forall (λ e, e = on_stop) events.
Proof.
  revert c calls. induction events as [| e rest IH]; intros c calls Hidle Hrun.
  - by simplify_eq/=.
  - simpl in Hrun.
    destruct (deliver M e c) as [[c1 calls1] |] eqn:Hstep; [| done].
    simpl in Hrun.
    destruct (run M c1 rest) as [[c2 calls2] |] eqn:Hrest; [| done].
    simplify_eq/=. unfold deliver in Hstep. rewrite Hidle in Hstep.
    destruct e; simplify_eq/=.
    apply IH in Hrest as (-> & Hflight & Hvotes & Hstops); [| done].
    split_and!; [done | done | done |]. by apply Forall_cons.
Qed.

(** *** The count of votes *)

(** In a session with a quorum between 1 and the range of the counter,
    [votes_] is the number of peers that completed with [success] so far,
    and that number never exceeds the quorum: after the last vote needed
    no further peer is dialled. *)
Theorem votes_count_successes stopped start quorum_ rate events c calls :
  1 ≤ quorum_ < M →
  run M (started (construct stopped start quorum_ rate)) events
    = Some (c, calls) →
  votes_ (the_session c) = successes events ∧ successes events ≤ quorum_.
Proof.
  intros Hq Hrun.
  pose proof (run_progress M _ _ _ _ [] _ 0 Hq Hrun
                (started_progress stopped start quorum_ rate))
    as (_ & Hphase).
  simpl in Hphase.
  destruct Hphase as [(_ & -> & Hn & _)
                     | [(_ & _ & -> & Hn & _) | (_ & -> & Hn & _)]]; lia.
Qed.

(** *** A failed start *)

(** When the session fails to start, the code of the failure is handed to
    the handler, no peer is dialled, and the session is over: nothing but
    a stop can reach it any more. *)
Theorem failed_start_ends_session s ec events c calls :
  ec ≠ error.success →
  run M (started s) (on_started ec :: events) = Some (c, calls) →
  calls = [handler ec] ∧ in_flight c = [] ∧
  Forall (λ e, e = on_stop) events.
Proof.
  intros Hec%is_error_true Hrun. simpl in Hrun.
  unfold deliver in Hrun. simpl in Hrun.
  unfold handle_started in Hrun. rewrite Hec in Hrun. simpl in Hrun.
  destruct (run M _ events) as [[c' calls'] |] eqn:Hrest; [| done].
  simplify_eq/=.
  apply idle_session_is_inert in Hrest as (-> & Hflight & _ & Hstops); done.
Qed.

End session.

(** *** Instances *)

Ltac decided := apply (bool_decide_unpack _); vm_compute; exact I.

Lemma failed_start_ends_session_witness :
  ∃ c calls,
    run (2 ^ 32) (started two_votes)
      [on_started error.service_stopped; on_stop] = Some (c, calls) ∧
    calls = [handler error.service_stopped].
Proof.
  destruct (run (2 ^ 32) (started two_votes) _) as [[c calls] |]
    eqn:Hrun; [| vm_compute in Hrun; discriminate Hrun].
  exists c, calls. split; [reflexivity |].
  destruct (failed_start_ends_session (2 ^ 32) two_votes
              error.service_stopped [on_stop] c calls)
    as (Hcalls & _); [discriminate | exact Hrun |].
  exact Hcalls.
Defined.

Lemma at_most_one_report_witness :
  ∃ c calls,
    run (2 ^ 32) (started two_votes) three_peers = Some (c, calls) ∧
    (reports calls + length (in_flight c) ≤ 1)%nat.
Proof.
  destruct (run (2 ^ 32) (started two_votes) three_peers) as [[c calls] |]
    eqn:Hrun; [| vm_compute in Hrun; discriminate Hrun].
  exists c, calls. split; [reflexivity |].
  apply (at_most_one_report (2 ^ 32) two_votes three_peers c calls Hrun).
Defined.

Lemma success_needs_a_successful_peer_witness :
  on_complete error.success ∈ three_peers.
Proof.
  destruct (run (2 ^ 32) (started two_votes) three_peers) as [[c calls] |]
    eqn:Hrun; [| vm_compute in Hrun; discriminate Hrun].
  apply (success_needs_a_successful_peer (2 ^ 32) (started two_votes)
           three_peers c calls Hrun).
  vm_compute in Hrun. injection Hrun as _ <-. decided.
Defined.

Lemma stopped_session_never_dials_witness :
  ∃ c calls,
    run (2 ^ 32) (started (construct true 0 2 10))
      [on_started error.success] = Some (c, calls) ∧
    fetch_address ∉ calls.
Proof.
  destruct (run (2 ^ 32) (started (construct true 0 2 10)) _)
    as [[c calls] |] eqn:Hrun; [| vm_compute in Hrun; discriminate Hrun].
  exists c, calls. split; [reflexivity |].
  destruct (stopped_session_never_dials (2 ^ 32)
              (started (construct true 0 2 10)) [on_started error.success]
              c calls)
    as (_ & Hcalls); [reflexivity | exact Hrun |].
  exact Hcalls.
Defined.

Lemma idle_session_is_inert_witness :
  ∃ c calls,
    run (2 ^ 32) (configure two_votes []) [on_stop; on_stop]
      = Some (c, calls) ∧
    calls = [].
Proof.
  destruct (run (2 ^ 32) (configure two_votes []) _) as [[c calls] |]
    eqn:Hrun; [| vm_compute in Hrun; discriminate Hrun].
  exists c, calls. split; [reflexivity |].
  destruct (idle_session_is_inert (2 ^ 32) (configure two_votes [])
              [on_stop; on_stop] c calls)
    as (Hcalls & _); [reflexivity | exact Hrun |].
  exact Hcalls.
Defined.

Lemma votes_count_successes_witness :
  ∃ c calls,
    run (2 ^ 32) (started two_votes) three_peers = Some (c, calls) ∧
    votes_ (the_session c) = 2.
Proof.
  destruct (run (2 ^ 32) (started two_votes) three_peers) as [[c calls] |]
    eqn:Hrun; [| vm_compute in Hrun; discriminate Hrun].
  exists c, calls. split; [reflexivity |].
  destruct (votes_count_successes (2 ^ 32) false 0 2 10 three_peers c calls)
    as (Hvotes & _); [lia | exact Hrun |].
  rewrite Hvotes. reflexivity.
Defined.

End block_sync_extras.

(** * Further properties of the console *)

Module console_extras.

Import Stdlib.Strings.Ascii Stdlib.Strings.String.
Import console dispatch.

Open Scope string_scope.

(** *** [trim_copy] *)

Lemma trim_left_pad ws s :
  all_space ws = true → trim_left (ws ++ s) = trim_left s.
Proof.
  induction ws as [| c ws IH]; simpl; [done |].
  intros [Hc Hws]%andb_true_iff. rewrite Hc. by apply IH.
Qed.

Lemma trim_left_id s a :
  first_char s = Some a → is_space a = false → trim_left s = s.
Proof. destruct s; simpl; [done |]. by intros [= ->] ->. Qed.

Lemma trim_right_blank ws : all_space ws = true → trim_right ws = "".
Proof.
  induction ws as [| c ws IH]; simpl; [done |].
  intros [Hc Hws]%andb_true_iff. by rewrite IH, Hc.
Qed.

Lemma trim_right_id s b :
  last_char s = Some b → is_space b = false → trim_right s = s.
Proof.
  induction s as [| c rest IH]; [done |].
  destruct rest as [| d rest].
  - simpl. by intros [= ->] ->.
  - intros Hlast Hb. change (last_char (String d rest) = Some b) in Hlast.
    change (trim_right (String c (String d rest)))
      with (match trim_right (String d rest) with
            | "" => if is_space c then "" else String c ""
            | kept => String c kept
            end).
    by rewrite (IH Hlast Hb).
Qed.

Lemma trim_right_pad s ws :
  all_space ws = true → trim_right (s ++ ws) = trim_right s.
Proof.
  intros Hws. induction s as [| c s IH]; simpl.
  - by apply trim_right_blank.
  - by rewrite IH.
Qed.

Lemma trim_right_keep x s :
  trim_right s ≠ "" → trim_right (x ++ s) = x ++ trim_right s.
Proof.
  intros Hs. induction x as [| c x IH]; [done |].
  change (String c x ++ s) with (String c (x ++ s)).
  change (String c x ++ trim_right s) with (String c (x ++ trim_right s)).
  simpl. rewrite IH. destruct (x ++ trim_right s) eqn:Hrest; [| done].
  destruct x; simpl in Hrest; [by destruct Hs | done].
Qed.

Lemma last_char_Some s : s ≠ "" → ∃ b, last_char s = Some b.
Proof.
  induction s as [| c rest IH]; [done |]. intros _.
  destruct rest as [| d rest]; [by exists c |].
  destruct IH as [b Hb]; [done |]. by exists b.
Qed.

Lemma trim_left_first s c :
  first_char (trim_left s) = Some c → is_space c = false.
Proof.
  induction s as [| a rest IH]; simpl; [done |].
  destruct (is_space a) eqn:Ha; [done |]. simpl. by intros [= <-].
Qed.

Lemma trim_right_last s c :
  last_char (trim_right s) = Some c → is_space c = false.
Proof.
  induction s as [| a rest IH]; simpl; [done |].
  destruct (trim_right rest) as [| d kept] eqn:Hrest.
  - destruct (is_space a) eqn:Ha; simpl; [done |]. by intros [= <-].
  - done.
Qed.

Lemma trim_left_last s c :
  last_char (trim_left s) = Some c → last_char s = Some c.
Proof.
  induction s as [| a rest IH]; simpl; [done |].
  destruct (is_space a); [| done].
  intros Hlast%IH. by destruct rest.
Qed.

(** Trimming takes the padding off and nothing else: a text that neither
    begins nor ends with white space comes back unchanged from any white
    space put before and after it. *)
Theorem trim_copy_padding ws1 s ws2 a b :
  all_space ws1 = true → all_space ws2 = true →
  first_char s = Some a → is_space a = false →
  last_char s = Some b → is_space b = false →
  trim_copy (ws1 ++ s ++ ws2) = s.
Proof.
  intros Hws1 Hws2 Hfirst Ha Hlast Hb. unfold trim_copy.
  assert (trim_right (s ++ ws2) = s) as Hright.
  { by rewrite trim_right_pad, (trim_right_id s b). }
  rewrite trim_right_keep, Hright.
  - by rewrite trim_left_pad, (trim_left_id s a).
  - rewrite Hright. by destruct s.
Qed.

(** What [trim_copy] returns neither begins nor ends with white space, and
    trimming it again changes nothing. *)
Theorem trim_copy_trimmed s :
  (∀ c, first_char (trim_copy s) = Some c → is_space c = false) ∧
  (∀ c, last_char (trim_copy s) = Some c → is_space c = false) ∧
  trim_copy (trim_copy s) = trim_copy s.
Proof.
  assert (∀ c, first_char (trim_copy s) = Some c → is_space c = false)
    as Hfirst by (intros c; apply trim_left_first).
  assert (∀ c, last_char (trim_copy s) = Some c → is_space c = false)
    as Hlast.
  { intros c Hc%trim_left_last. by eapply trim_right_last. }
  split_and!; [done | done |].
  destruct (trim_copy s) as [| a rest] eqn:Htrim; [done |].
  destruct (last_char_Some (String a rest)) as [b Hb]; [done |].
  unfold trim_copy.
  rewrite (trim_right_id _ b Hb (Hlast b Hb)).
  apply (trim_left_id _ a); [done |]. by apply Hfirst.
Qed.

(** *** The turns of the command loop *)

(** A line of white space only, unless it is empty, is not a stop: it is
    handed on as the empty address. *)
Theorem blank_line_is_empty_query command :
  command ≠ "" → all_space command = true →
  command_turn command = query "".
Proof.
  intros Hne Hblank. unfold command_turn, trim_copy, equals_literal.
  rewrite (trim_right_blank _ Hblank). simpl.
  by rewrite bool_decide_eq_false_2.
Qed.

(** [stop] is recognised whatever white space surrounds it. *)
Theorem padded_stop_shuts_down ws1 ws2 :
  all_space ws1 = true → all_space ws2 = true →
  command_turn (ws1 ++ "stop" ++ ws2) = shutdown.
Proof.
  intros Hws1 Hws2. unfold command_turn.
  rewrite (trim_copy_padding ws1 "stop" ws2 "s" "p") by done.
  by rewrite orb_true_r.
Qed.

Lemma command_turn_query command :
  command_turn command ≠ shutdown →
  command_turn command = query (trim_copy command).
Proof. unfold command_turn. by destruct (_ || _). Qed.

(** The loop reads up to the first line that stops it, or up to the end of
    the input: every line before is handed on, trimmed and in order, as an
    address; no line after it is read. *)
Theorem command_loop_stops_at_first_stop (before : list string) :
  Forall (λ line, command_turn line ≠ shutdown) before →
  command_loop before = ((query ∘ trim_copy <$> before) ++ [shutdown])%list ∧
  ∀ line after,
    command_turn line = shutdown →
    command_loop (before ++ line :: after)%list
      = ((query ∘ trim_copy <$> before) ++ [shutdown])%list.
Proof.
  induction 1 as [| first before Hfirst Hbefore [IHend IHstop]].
  - split; [done |]. intros line after Hline. simpl. by rewrite Hline.
  - apply command_turn_query in Hfirst as Hquery.
    split; [| intros line after Hline]; simpl; rewrite Hquery; simpl;
      f_equal; [done | by apply IHstop].
Qed.


(** *** The entry point *)

Close Scope string_scope.

Ltac in_effects H :=
  repeat first
    [ apply elem_of_nil in H; destruct H
    | apply elem_of_cons in H as [H | H];
      [ try discriminate H; try (injection H as H) | ] ].

Lemma is_error_false ec : error.is_error ec = false ↔ ec = error.success.
Proof.
  unfold error.is_error. rewrite negb_false_iff. apply bool_decide_eq_true.
Qed.

Lemma process_arguments_none argv directory output error sys :
  argv !! 1%nat = None →
  process_arguments argv directory output error sys = (okay, []).
Proof. unfold process_arguments. by intros ->. Qed.

Lemma process_arguments_some argv directory output error sys argument :
  argv !! 1%nat = Some argument →
  (process_arguments argv directory output error sys).1 ≠ okay.
Proof.
  unfold process_arguments, init_chain. intros ->.
  by repeat case_match.
Qed.

Lemma dispatch_arguments argv input sys argument :
  argv !! 1%nat = Some argument →
  dispatch argv input sys =
    process_arguments argv (blockchain_database_path sys) the_output
      the_error sys.
Proof.
  intros Harg. unfold dispatch.
  pose proof (process_arguments_some argv (blockchain_database_path sys)
                the_output the_error sys argument Harg) as Hresult.
  destruct (process_arguments _ _ _ _ _) as [result told]. simpl in Hresult.
  by rewrite bool_decide_eq_false_2.
Qed.

Lemma dispatch_no_arguments argv input sys :
  argv !! 1%nat = None →
  dispatch argv input sys =
    let directory := blockchain_database_path sys in
    let begun :=
      [exists_ directory; signal SIGABRT; signal SIGTERM; signal SIGINT;
       write the_output (BN_NODE_STARTING directory); node_start] in
    if negb (found sys) then (verify_chain directory bc_cerr sys)
    else if error.is_error (started sys)
    then (not_started, begun ++ [write the_output BN_NODE_START_FAIL])
    else (if error.is_error (stopped sys) then failure else okay,
          begun ++ (command_loop input ≫= serve the_output sys)
          ++ [node_stop]).
Proof.
  intros Hnone. unfold dispatch.
  rewrite (process_arguments_none _ _ _ _ _ Hnone). simpl.
  unfold verify_chain. destruct (found sys); simpl; [| done].
  by destruct (error.is_error (started sys)).
Qed.

Lemma command_loop_turn input t :
  t ∈ command_loop input →
  t = shutdown ∨ ∃ line, line ∈ input ∧ t = query (console.trim_copy line).
Proof.
  induction input as [| line rest IH]; simpl.
  - intros Hin. in_effects Hin. by left.
  - unfold command_turn at 1. destruct (_ || _).
    + intros Hin. in_effects Hin. by left.
    + intros [-> | Hin]%elem_of_cons.
      * right. exists line. split; [by left | done].
      * destruct (IH Hin) as [-> | (l & Hl & ->)]; [by left |].
        right. exists l. split; [by right | done].
Qed.

Lemma served_effect input sys e :
  e ∈ command_loop input ≫= serve the_output sys →
  (∃ t, e = write the_output t) ∨
  (∃ line, line ∈ input ∧ e = fetch_history (console.trim_copy line) ∧
           valid_address sys (console.trim_copy line) = true).
Proof.
  intros (t & He & Ht)%list_elem_of_bind.
  apply command_loop_turn in Ht as [-> | (line & Hline & ->)]; simpl in He.
  - in_effects He. left. by eexists.
  - destruct (valid_address sys _) eqn:Hvalid; in_effects He.
    + right. exists line. by subst.
    + left. by eexists.
Qed.


(** The node is started if and only if no argument was given and the
    directory exists, and it is stopped if and only if it was started
    without an error: whatever is typed, a node that runs is stopped before
    [dispatch] returns, and nothing else is. *)
Theorem node_lifecycle argv input sys :
  (node_start ∈ (dispatch argv input sys).2 ↔
   (List.length argv ≤ 1)%nat ∧ found sys = true) ∧
  (node_stop ∈ (dispatch argv input sys).2 ↔
   (List.length argv ≤ 1)%nat ∧ found sys = true ∧
   started sys = error.success).
Proof.
  rewrite <- lookup_ge_None, <- !is_error_false.
  destruct (argv !! 1%nat) as [argument |] eqn:Harg.
  - rewrite (dispatch_arguments _ _ _ _ Harg).
    unfold process_arguments, init_chain, display_version. rewrite Harg.
    split; (split; [| intuition (done || congruence)]); intros Hin;
      repeat case_match; simpl in Hin; in_effects Hin.
  - rewrite (dispatch_no_arguments _ _ _ Harg). simpl. unfold verify_chain.
    destruct (found sys); simpl.
    + destruct (error.is_error (started sys)); simpl.
      * split; [split; [done |]; intros _; do 5 right; by left |].
        split; [| intuition (done || congruence)]. intros Hin. in_effects Hin.
      * split; (split; [done |]); intros _.
        -- do 5 right. by left.
        -- do 6 right. apply elem_of_app. right. by left.
    + split; (split; [| intuition (done || congruence)]); intros Hin; in_effects Hin.
Qed.

(** The database is initialized only in a directory that
    [create_directories] has just created, and only for the arguments that
    ask for it, with the genesis block of the network they name: a
    directory that exists already is never initialized again. *)
Theorem initialize_only_new_directory argv input sys prefix testnet :
  database_initialize prefix testnet ∈ (dispatch argv input sys).2 ↔
  created sys = true ∧ prefix = blockchain_database_path sys ∧
  ∃ argument,
    argv !! 1%nat = Some argument ∧
    if testnet
    then argument = "-t"%string ∨ argument = "--testnet"%string
    else argument = "-m"%string ∨ argument = "--mainnet"%string.
Proof.
  destruct (argv !! 1%nat) as [argument |] eqn:Harg.
  - rewrite (dispatch_arguments _ _ _ _ Harg).
    unfold process_arguments, init_chain, display_version, equals_literal.
    rewrite Harg. simpl. split.
    + intros Hin.
      repeat (case_bool_decide; simpl in Hin);
        destruct (created sys); simpl in Hin; in_effects Hin;
        simplify_eq; (split; [done |]); (split; [done |]);
        eexists; (split; [done |]); simpl; by eauto.
    + intros (Hcreated & -> & arg & [= <-] & Hasked). rewrite Hcreated.
      destruct testnet, Hasked as [-> | ->]; simpl;
        do 2 right; by left.
  - rewrite (dispatch_no_arguments _ _ _ Harg). simpl. unfold verify_chain.
    split; [| (by intros (_ & _ & ? & [=] & _))]. intros Hin.
    destruct (found sys); simpl in Hin; [| in_effects Hin].
    destruct (error.is_error (started sys)); simpl in Hin; [in_effects Hin |].
    repeat (apply elem_of_cons in Hin as [Hin | Hin]; [discriminate Hin |]).
    apply elem_of_app in Hin as [Hin | Hin]; [| in_effects Hin].
    apply served_effect in Hin as [[t [=]] | (line & _ & [=] & _)].
Qed.

(** An address is looked up only if a line of the input, trimmed, is that
    address, and [payment_address] accepts it; no look-up is made unless
    the node was started. *)
Theorem only_valid_typed_addresses_fetched argv input sys address :
  fetch_history address ∈ (dispatch argv input sys).2 →
  valid_address sys address = true ∧
  (∃ line, line ∈ input ∧ address = console.trim_copy line) ∧
  node_start ∈ (dispatch argv input sys).2 ∧
  started sys = error.success.
Proof.
  intros Hin. pose proof Hin as Hfetch. revert Hin.
  destruct (argv !! 1%nat) as [argument |] eqn:Harg.
  - rewrite (dispatch_arguments _ _ _ _ Harg).
    unfold process_arguments, init_chain, display_version. rewrite Harg.
    intros Hin. repeat case_match; simpl in Hin; in_effects Hin.
  - rewrite (dispatch_no_arguments _ _ _ Harg) in *. simpl in *.
    unfold verify_chain in *. clear Hfetch.
    destruct (found sys); simpl; [| intros Hin; in_effects Hin].
    destruct (error.is_error (started sys)) eqn:Hstarted; simpl;
      [intros Hin; in_effects Hin |].
    apply is_error_false in Hstarted. intros Hin.
    repeat (apply elem_of_cons in Hin as [Hin | Hin]; [discriminate Hin |]).
    apply elem_of_app in Hin as [Hin | Hin]; [| in_effects Hin].
    apply served_effect in Hin as [[t [=]] | (line & Hline & [= ->] & Hvalid)].
    split_and!; [done | by eexists | | done].
    do 5 right. by left.
Qed.

(** *** Instances *)

Ltac decided := apply (bool_decide_unpack _); vm_compute; exact I.

Lemma trim_copy_padding_witness :
  console.trim_copy ("  " +:+ "1abc" +:+ " ") = "1abc"%string.
Proof.
  apply (trim_copy_padding "  " "1abc" " " "1" "c"); reflexivity.
Defined.

Lemma blank_line_is_empty_query_witness :
  command_turn "  " = query "".
Proof.
  apply (blank_line_is_empty_query "  "); [discriminate | reflexivity].
Defined.

Lemma padded_stop_shuts_down_witness :
  command_turn (" " +:+ "stop" +:+ "  ") = shutdown.
Proof. apply (padded_stop_shuts_down " " "  "); reflexivity. Defined.

Lemma command_loop_stops_at_first_stop_witness :
  command_loop ([" 1abc"%string; "xyz"%string]
                ++ "stop"%string :: ["1def"%string])
  = [query "1abc"; query "xyz"; shutdown].
Proof.
  apply (command_loop_stops_at_first_stop [" 1abc"%string; "xyz"%string]);
    [| reflexivity].
  repeat constructor; discriminate.
Defined.

Lemma only_valid_typed_addresses_fetched_witness :
  valid_address ready "1abc" = true.
Proof.
  apply (only_valid_typed_addresses_fetched ["bn"%string]
           [" 1abc "%string; "stop"%string] ready "1abc").
  decided.
Defined.

End console_extras.
